(** * 1claw MCP: the credential-and-request core of [client.ts]

    A shallow embedding of [OneClawClient] (token resolution, the request
    executor, path encoding) and of the session router [resolveClient],
    followed by the properties the specification states about them; then
    the code around them: the constructor, the secret endpoints, the
    [get_secret] and [delete_secret] tools, and from [index.ts] the
    startup, [authenticate] and the [get_env_bundle] tool.

    Conventions.
    - A JavaScript string is the sequence of its UTF-16 code units
      ([jsstring]); ASCII literals of the source are written [lit "..."].
    - A JavaScript number is an integer ([Fin z]) or [NaN].  The arithmetic
      of the source ([Date.now() + expires_in * 1000], comparisons) is exact
      on integers below 2^53; fractional numbers are outside the model.
    - [fetch], [Response.json] and [Date.now] are the environment: a
      [World] holds the clock, the replies still to come and the trace of
      what the client did. *)

From Stdlib Require Import List ZArith NArith String Ascii Bool Lia.
From Stdlib Require Import DecimalString.
Import ListNotations.

Set Implicit Arguments.
#[local] Set Warnings "-register-all".

(* ================================================================== *)
(** * Strings *)
(* ================================================================== *)

Local Open Scope N_scope.

Definition jsstring := list N.

Definition lit (s : string) : jsstring :=
  map N_of_ascii (list_ascii_of_string s).

Definition jsstring_eqb (a b : jsstring) : bool :=
  if list_eq_dec N.eq_dec a b then true else false.

Definition slash : N := 47.
Definition percent : N := 37.

(** [String.prototype.split] with a separator of one code unit: the pieces
    between consecutive occurrences, the empty string giving one empty
    piece. *)
Fixpoint split (sep : N) (s : jsstring) : list jsstring :=
  match s with
  | [] => [[]]
  | c :: rest =>
      if N.eqb c sep then [] :: split sep rest
      else match split sep rest with
           | seg :: segs => (c :: seg) :: segs
           | [] => [[c]]
           end
  end.

(** [Array.prototype.join]. *)
Fixpoint join (sep : jsstring) (l : list jsstring) : jsstring :=
  match l with
  | [] => []
  | [x] => x
  | x :: xs => x ++ sep ++ join sep xs
  end.

(** [is_infix a b]: [a] occurs in [b] as a contiguous run. *)
Definition is_infix (a b : jsstring) : Prop :=
  exists pre post, b = pre ++ a ++ post.

(* ------------------------------------------------------------------ *)
(** ** [encodeURIComponent] (ECMA-262, Encode with the unreserved set) *)

Definition in_range (lo hi c : N) : bool := N.leb lo c && N.leb c hi.

(** A-Z a-z 0-9 and [- _ . ! ~ * ' ( )]. *)
Definition uriUnreserved (c : N) : bool :=
  in_range 65 90 c || in_range 97 122 c || in_range 48 57 c
  || existsb (N.eqb c) [45; 95; 46; 33; 126; 42; 39; 40; 41].

Definition is_lead (c : N) : bool := in_range 0xD800 0xDBFF c.
Definition is_trail (c : N) : bool := in_range 0xDC00 0xDFFF c.

Definition surrogate_pair (hi lo : N) : N :=
  (hi - 0xD800) * 0x400 + (lo - 0xDC00) + 0x10000.

Definition cont (x : N) : N := N.lor 0x80 (N.land x 0x3F).

Definition utf8 (cp : N) : list N :=
  if N.ltb cp 0x80 then [cp]
  else if N.ltb cp 0x800 then
    [N.lor 0xC0 (N.shiftr cp 6); cont cp]
  else if N.ltb cp 0x10000 then
    [N.lor 0xE0 (N.shiftr cp 12); cont (N.shiftr cp 6); cont cp]
  else
    [N.lor 0xF0 (N.land (N.shiftr cp 18) 0x07); cont (N.shiftr cp 12);
     cont (N.shiftr cp 6); cont cp].

Definition hexdigit (d : N) : N :=
  if N.ltb d 10 then 48 + d else 55 + d.

Definition pct_octet (o : N) : jsstring :=
  [percent; hexdigit (N.land (N.shiftr o 4) 0xF); hexdigit (N.land o 0xF)].

Definition pct_octets (os : list N) : jsstring :=
  flat_map pct_octet os.

(** [None] is the [URIError] raised on an unpaired surrogate. *)
Fixpoint encodeURIComponent (s : jsstring) : option jsstring :=
  match s with
  | [] => Some []
  | c :: rest =>
      if uriUnreserved c then option_map (cons c) (encodeURIComponent rest)
      else if is_lead c then
        match rest with
        | d :: rest' =>
            if is_trail d
            then option_map (app (pct_octets (utf8 (surrogate_pair c d))))
                            (encodeURIComponent rest')
            else None
        | [] => None
        end
      else if is_trail c then None
      else option_map (app (pct_octets (utf8 c))) (encodeURIComponent rest)
  end.

(** [Array.prototype.map] with a callback that may throw: the first
    exception ends the traversal. *)
Fixpoint map_throwing {A B} (f : A -> option B) (l : list A) : option (list B) :=
  match l with
  | [] => Some []
  | x :: xs =>
      match f x with
      | None => None
      | Some y => option_map (cons y) (map_throwing f xs)
      end
  end.

(** client.ts, [encodePath]. *)
Definition encodePath (path : jsstring) : option jsstring :=
  option_map (join [slash]) (map_throwing encodeURIComponent (split slash path)).

(* ================================================================== *)
(** * Values and coercions *)
(* ================================================================== *)

Local Open Scope Z_scope.

Inductive number := Fin (z : Z) | NaN.

(** What [JSON.parse] builds, and [undefined].  An object is the list of
    its own properties; a lookup takes the first binding of a name. *)
Inductive value :=
| VUndefined
| VNull
| VBool (b : bool)
| VNum (n : number)
| VStr (s : jsstring)
| VArr (items : list value)
| VObj (props : list (jsstring * value)).

Fixpoint own_prop (k : jsstring) (props : list (jsstring * value)) : option value :=
  match props with
  | [] => None
  | (k', v) :: rest => if jsstring_eqb k k' then Some v else own_prop k rest
  end.

(** [v.k] for a name [k] that no built-in prototype defines (the client
    reads [detail], [type], [access_token] and [expires_in]).  [None] is
    the [TypeError] of a property read on [null] or [undefined]. *)
Definition get_prop (v : value) (k : jsstring) : option value :=
  match v with
  | VUndefined | VNull => None
  | VObj props =>
      Some (match own_prop k props with Some x => x | None => VUndefined end)
  | _ => Some VUndefined
  end.

(** ToBoolean. *)
Definition truthy (v : value) : bool :=
  match v with
  | VUndefined | VNull => false
  | VBool b => b
  | VNum (Fin z) => negb (z =? 0)
  | VNum NaN => false
  | VStr s => match s with [] => false | _ => true end
  | VArr _ | VObj _ => true
  end.

Definition show_Z (z : Z) : jsstring := lit (NilZero.string_of_int (Z.to_int z)).

Definition Number_toString (n : number) : jsstring :=
  match n with
  | Fin z => show_Z z
  | NaN => lit "NaN"
  end.

(** ToString, as a template literal applies it.  [None] is a [TypeError]:
    an object parsed from JSON whose own property [toString] shadows
    [Object.prototype.toString] has no callable conversion left. *)
Fixpoint ToString (v : value) : option jsstring :=
  match v with
  | VUndefined => Some (lit "undefined")
  | VNull => Some (lit "null")
  | VBool b => Some (if b then lit "true" else lit "false")
  | VNum n => Some (Number_toString n)
  | VStr s => Some s
  | VArr items =>
      let fix elements (l : list value) : option (list jsstring) :=
        match l with
        | [] => Some []
        | x :: xs =>
            match (match x with
                   | VUndefined | VNull => Some []
                   | _ => ToString x
                   end) with
            | None => None
            | Some s => option_map (cons s) (elements xs)
            end
        end in
      option_map (join (lit ",")) (elements items)
  | VObj props =>
      match own_prop (lit "toString") props with
      | Some _ => None
      | None => Some (lit "[object Object]")
      end
  end.

(** [a === b] where [b] is a string. *)
Definition strict_eq_string (a : value) (b : jsstring) : bool :=
  match a with
  | VStr s => jsstring_eqb s b
  | _ => false
  end.

Definition num_add (a b : number) : number :=
  match a, b with Fin x, Fin y => Fin (x + y) | _, _ => NaN end.

Definition num_sub (a b : number) : number :=
  match a, b with Fin x, Fin y => Fin (x - y) | _, _ => NaN end.

Definition num_mul (a b : number) : number :=
  match a, b with Fin x, Fin y => Fin (x * y) | _, _ => NaN end.

Definition num_lt (a b : number) : bool :=
  match a, b with Fin x, Fin y => x <? y | _, _ => false end.

(* ================================================================== *)
(** * Exceptions *)
(* ================================================================== *)

(** client.ts, [class OneClawApiError extends Error]: [message] is what
    [super(detail)] stores. *)
Record ApiError := { status : Z; detail : value; message : jsstring }.

Inductive Exn :=
| OneClawApiError (e : ApiError)
| UserError (msg : jsstring)
| TypeError
| SyntaxError
| URIError
| FetchFailed.

Inductive Result (A : Type) :=
| Return (a : A)
| Throw (e : Exn).
Arguments Return {A} a.
Arguments Throw {A} e.

(** The [message] that [new Error(d)] stores: ToString of [d], which may
    throw, and the empty string of [Error.prototype] when [d] is
    [undefined]. *)
Definition Error_message (d : value) : option jsstring :=
  match d with
  | VUndefined => Some []
  | _ => ToString d
  end.

(** [new OneClawApiError(status, detail)]. *)
Definition new_OneClawApiError (st : Z) (d : value) : Exn :=
  match Error_message d with
  | Some m => OneClawApiError {| status := st; detail := d; message := m |}
  | None => TypeError
  end.

(* ================================================================== *)
(** * The environment: network and clock *)
(* ================================================================== *)

(** The text [JSON.stringify(v)], kept symbolic. *)
Inductive Body := JSON_stringify (v : value).

Module Request.
(** The arguments of one [fetch] call. *)
Record t := {
  url : jsstring;
  method : option jsstring;
  headers : list (jsstring * jsstring);
  body : option Body
}.
End Request.

Module RequestInit.
Record t := {
  method : option jsstring;
  headers : list (jsstring * jsstring);
  body : option Body
}.
End RequestInit.

Module Response.
(** [json] is what [res.json()] resolves to, [None] when the body is
    not JSON and the promise rejects. *)
Record t := { status : Z; json : option value }.

Definition ok (r : t) : bool := (200 <=? status r) && (status r <=? 299).
End Response.

Inductive Reply :=
| NetworkError
| Answer (r : Response.t).

Inductive Event :=
| Fetch (rq : Request.t)
| ReadBody.

(** [incoming] lists, for the [fetch] calls still to come, the time each
    takes and what comes back; when it runs out the network is down.
    The client runs one call after the other, so whatever the network
    does during a run is one such list. *)
Record World := {
  clock : Z;
  incoming : list (Z * Reply);
  trace : list Event
}.

(* ================================================================== *)
(** * Computations: state and exceptions *)
(* ================================================================== *)

Definition M (S A : Type) : Type := S -> Result A * S.

Definition ret {S A} (a : A) : M S A := fun s => (Return a, s).

Definition throw {S A} (e : Exn) : M S A := fun s => (Throw e, s).

Definition bind {S A B} (m : M S A) (k : A -> M S B) : M S B :=
  fun s =>
    match m s with
    | (Return a, s') => k a s'
    | (Throw e, s') => (Throw e, s')
    end.

Notation "x <- m ;; k" := (bind m (fun x => k))
  (at level 61, m at next level, right associativity).
Notation "m ;; k" := (bind m (fun _ => k))
  (at level 61, right associativity).

(** [try { m } catch { h }]: what [m] did before throwing stays done. *)
Definition try_catch {S A} (m : M S A) (h : Exn -> M S A) : M S A :=
  fun s =>
    match m s with
    | (Return a, s') => (Return a, s')
    | (Throw e, s') => h e s'
    end.

(** A coercion or property read that raises [TypeError]. *)
Definition or_TypeError {S A} (o : option A) : M S A :=
  match o with
  | Some a => ret a
  | None => throw TypeError
  end.

(* ================================================================== *)
(** * client.ts *)
(* ================================================================== *)

Module ClientConfig.
Record t := { baseUrl : jsstring; token : jsstring; vaultId : jsstring }.
End ClientConfig.

Module AgentCredentials.
Record t := {
  baseUrl : jsstring;
  agentId : jsstring;
  apiKey : jsstring;
  vaultId : jsstring
}.
End AgentCredentials.

Module SessionAuth.
(** index.ts, [type SessionAuth]. *)
Record t := { token : jsstring; vaultId : jsstring }.
End SessionAuth.

(** [ClientConfig | AgentCredentials]. *)
Inductive Config :=
| Static (c : ClientConfig.t)
| Agent (a : AgentCredentials.t).

Definition REFRESH_BUFFER_MS : Z := 60000.

Record OneClawClient := {
  baseUrl : jsstring;
  token : value;
  vaultId : jsstring;
  agentCredentials : option (jsstring * jsstring);
  tokenExpiresAt : number
}.

(** [s.replace(/\/$/, "")]: one final slash is dropped. *)
Fixpoint strip_trailing_slash (s : jsstring) : jsstring :=
  match s with
  | [] => []
  | [c] => if N.eqb c slash then [] else [c]
  | c :: rest => c :: strip_trailing_slash rest
  end.

(** [constructor(config)]. *)
Definition new_OneClawClient (config : Config) : OneClawClient :=
  match config with
  | Agent a =>
      {| baseUrl := strip_trailing_slash (AgentCredentials.baseUrl a);
         vaultId := AgentCredentials.vaultId a;
         agentCredentials :=
           Some (AgentCredentials.agentId a, AgentCredentials.apiKey a);
         token := VStr [];
         tokenExpiresAt := Fin 0 |}
  | Static c =>
      {| baseUrl := strip_trailing_slash (ClientConfig.baseUrl c);
         vaultId := ClientConfig.vaultId c;
         agentCredentials := None;
         token := VStr (ClientConfig.token c);
         tokenExpiresAt := Fin 0 |}
  end.

(** A method runs on its receiver and on the world. *)
Definition Method (A : Type) : Type := M (OneClawClient * World) A.

Definition get_this : Method OneClawClient :=
  fun s => (Return (fst s), s).

Definition set_token (v : value) : Method unit :=
  fun '(c, w) =>
    (Return tt,
     ({| baseUrl := baseUrl c; token := v; vaultId := vaultId c;
         agentCredentials := agentCredentials c;
         tokenExpiresAt := tokenExpiresAt c |}, w)).

Definition set_tokenExpiresAt (n : number) : Method unit :=
  fun '(c, w) =>
    (Return tt,
     ({| baseUrl := baseUrl c; token := token c; vaultId := vaultId c;
         agentCredentials := agentCredentials c;
         tokenExpiresAt := n |}, w)).

(** [Date.now()]. *)
Definition Date_now : Method Z :=
  fun s => (Return (clock (snd s)), s).

Definition log (e : Event) (w : World) : World :=
  {| clock := clock w; incoming := incoming w; trace := trace w ++ [e] |}.

(** The world once [rq] has been sent and its reply, [dt] later, has
    been taken from [incoming]. *)
Definition answered (rq : Request.t) (dt : Z) (rest : list (Z * Reply))
    (w : World) : World :=
  {| clock := clock w + dt; incoming := rest; trace := trace w ++ [Fetch rq] |}.

(** [await fetch(url, init)]. *)
Definition fetch (rq : Request.t) : Method Response.t :=
  fun '(c, w) =>
    match incoming w with
    | [] => (Throw FetchFailed, (c, log (Fetch rq) w))
    | (dt, rep) :: rest =>
        match rep with
        | NetworkError => (Throw FetchFailed, (c, answered rq dt rest w))
        | Answer r => (Return r, (c, answered rq dt rest w))
        end
    end.

(** [await res.json()]. *)
Definition Response_json (res : Response.t) : Method value :=
  fun '(c, w) =>
    match Response.json res with
    | Some v => (Return v, (c, log ReadBody w))
    | None => (Throw SyntaxError, (c, log ReadBody w))
    end.

(** [try { body = await res.json() } catch { }] up to the first use of
    [body]. *)
Definition try_json (res : Response.t) : Method (option value) :=
  try_catch (b <- Response_json res ;; ret (Some b)) (fun _ => ret None).

Section Core.

(** StringToNumber of ECMA-262 (the value of a string used as a number),
    left to the runtime: the client applies it only when the exchange
    answers with an [expires_in] that is not a number. *)
Variable StringToNumber : jsstring -> number.

(** ToNumber, as [*] applies it to an operand.  [None] is the
    [TypeError] of an object that cannot be converted. *)
Definition ToNumber (v : value) : option number :=
  match v with
  | VUndefined => Some NaN
  | VNull => Some (Fin 0)
  | VBool b => Some (Fin (if b then 1 else 0))
  | VNum n => Some n
  | VStr s => Some (StringToNumber s)
  | VArr _ | VObj _ => option_map StringToNumber (ToString v)
  end.

(** The [fetch] of [ensureToken]. *)
Definition exchange_request (this : OneClawClient) (cred : jsstring * jsstring)
  : Request.t :=
  {| Request.url := baseUrl this ++ lit "/v1/auth/agent-token";
     Request.method := Some (lit "POST");
     Request.headers := [(lit "Content-Type", lit "application/json")];
     Request.body :=
       Some (JSON_stringify
               (VObj [(lit "agent_id", VStr (fst cred));
                      (lit "api_key", VStr (snd cred))])) |}.

Definition ensureToken : Method unit :=
  this <- get_this ;;
  match agentCredentials this with
  | None => ret tt
  | Some cred =>
      fresh <- (if truthy (token this)
                then now <- Date_now ;;
                     ret (num_lt (Fin now)
                            (num_sub (tokenExpiresAt this) (Fin REFRESH_BUFFER_MS)))
                else ret false) ;;
      if (fresh : bool) then ret tt
      else
        res <- fetch (exchange_request this cred) ;;
        if negb (Response.ok res) then
          let fallback := VStr (lit "HTTP " ++ show_Z (Response.status res)) in
          parsed <- try_json res ;;
          let detail :=
            match parsed with
            | None => fallback
            | Some body =>
                match get_prop body (lit "detail") with
                | None => fallback
                | Some d => if truthy d then d else fallback
                end
            end in
          text <- or_TypeError (ToString detail) ;;
          throw (new_OneClawApiError (Response.status res)
                   (VStr (lit "Agent auth failed: " ++ text)))
        else
          data <- Response_json res ;;
          access_token <- or_TypeError (get_prop data (lit "access_token")) ;;
          set_token access_token ;;
          now <- Date_now ;;
          expires_in <- or_TypeError (get_prop data (lit "expires_in")) ;;
          seconds <- or_TypeError (ToNumber expires_in) ;;
          set_tokenExpiresAt (num_add (Fin now) (num_mul seconds (Fin 1000)))
  end.

Definition headers : Method (list (jsstring * jsstring)) :=
  ensureToken ;;
  this <- get_this ;;
  bearer <- or_TypeError (ToString (token this)) ;;
  ret [(lit "Authorization", lit "Bearer " ++ bearer);
       (lit "Content-Type", lit "application/json")].

Definition vaultUrl (this : OneClawClient) (suffix : jsstring) : jsstring :=
  baseUrl this ++ lit "/v1/vaults/" ++ vaultId this ++ suffix.

(** Property assignment on an object literal: a name already present
    keeps its place and takes the new value.  (No statement below
    depends on the order of the headers.) *)
Fixpoint assign (k v : jsstring) (o : list (jsstring * jsstring))
  : list (jsstring * jsstring) :=
  match o with
  | [] => [(k, v)]
  | (k', v') :: rest =>
      if jsstring_eqb k k' then (k, v) :: rest else (k', v') :: assign k v rest
  end.

(** [{ ...a, ...b }]. *)
Definition spread (a b : list (jsstring * jsstring)) : list (jsstring * jsstring) :=
  fold_left (fun o kv => assign (fst kv) (snd kv) o) b a.

Definition QUOTA_EXHAUSTED : jsstring :=
  lit "Quota exhausted. Ask your human to upgrade the plan, add prepaid credits, or enable x402 micropayments at https://1claw.xyz/settings/billing".

Definition BILLING_URL : jsstring := lit "https://1claw.xyz/settings/billing".

Definition resource_limit_detail (text : jsstring) : jsstring :=
  lit "Resource limit reached: " ++ text
  ++ lit ". Ask your human to upgrade the plan at https://1claw.xyz/settings/billing".

(** What the [try] block of [request] leaves in [detail] and
    [errorType]; a property read that throws keeps what was assigned
    before it. *)
Definition read_envelope (parsed : option value) (fallback : value)
  : value * value :=
  match parsed with
  | None => (fallback, VStr [])
  | Some body =>
      match get_prop body (lit "detail") with
      | None => (fallback, VStr [])
      | Some d =>
          let detail := if truthy d then d else fallback in
          match get_prop body (lit "type") with
          | None => (detail, VStr [])
          | Some t => (detail, if truthy t then t else VStr [])
          end
      end
  end.

(** [url] with [{ ...init, headers: { ...hdrs, ...init?.headers } }]. *)
Definition fetch_args (url : jsstring) (init : option RequestInit.t)
    (hdrs : list (jsstring * jsstring)) : Request.t :=
  {| Request.url := url;
     Request.method :=
       match init with Some i => RequestInit.method i | None => None end;
     Request.headers :=
       spread hdrs
         match init with Some i => RequestInit.headers i | None => [] end;
     Request.body :=
       match init with Some i => RequestInit.body i | None => None end |}.

Definition request (url : jsstring) (init : option RequestInit.t) : Method value :=
  hdrs <- headers ;;
  res <- fetch (fetch_args url init hdrs) ;;
  if negb (Response.ok res) then
    parsed <- try_json res ;;
    let '(detail, errorType) :=
      read_envelope parsed (VStr (lit "HTTP " ++ show_Z (Response.status res))) in
    if Response.status res =? 402 then
      throw (new_OneClawApiError 402 (VStr QUOTA_EXHAUSTED))
    else if (Response.status res =? 403)
            && strict_eq_string errorType (lit "resource_limit_exceeded") then
      text <- or_TypeError (ToString detail) ;;
      throw (new_OneClawApiError 403 (VStr (resource_limit_detail text)))
    else
      throw (new_OneClawApiError (Response.status res) detail)
  else if Response.status res =? 204 then ret VUndefined
  else Response_json res.

(** A URL built from a path: [encodePath] may raise [URIError]. *)
Definition secret_url (path : jsstring) : Method jsstring :=
  this <- get_this ;;
  match encodePath path with
  | None => throw URIError
  | Some p => ret (vaultUrl this (lit "/secrets/" ++ p))
  end.

Definition listSecrets : Method value :=
  this <- get_this ;;
  request (vaultUrl this (lit "/secrets")) None.

Definition getSecret (path : jsstring) : Method value :=
  u <- secret_url path ;;
  request u None.

Definition putSecret (path : jsstring) (body : value) : Method value :=
  u <- secret_url path ;;
  request u (Some {| RequestInit.method := Some (lit "PUT");
                     RequestInit.headers := [];
                     RequestInit.body := Some (JSON_stringify body) |}).

Definition deleteSecret (path : jsstring) : Method unit :=
  u <- secret_url path ;;
  request u (Some {| RequestInit.method := Some (lit "DELETE");
                     RequestInit.headers := [];
                     RequestInit.body := None |}) ;;
  ret tt.

(* ================================================================== *)
(** * index.ts: the session router *)
(* ================================================================== *)

(** Clients are objects: the router hands out references into a heap,
    so that the shared client is one object and a session client a new
    one. *)
Definition Ref := nat.
Definition Heap := list OneClawClient.

Definition alloc (c : OneClawClient) : M Heap Ref :=
  fun h => (Return (List.length h), h ++ [c]).

Definition NOT_AUTHENTICATED : jsstring :=
  lit "Not authenticated. Provide Authorization and X-Vault-ID headers.".

(** The module-level [baseUrl] and [sharedClient]. *)
Variable ONECLAW_BASE_URL : jsstring.
Variable sharedClient : option Ref.

Definition resolveClient (session : option SessionAuth.t) : M Heap Ref :=
  match session with
  | Some s =>
      alloc (new_OneClawClient
               (Static {| ClientConfig.baseUrl := ONECLAW_BASE_URL;
                          ClientConfig.token := SessionAuth.token s;
                          ClientConfig.vaultId := SessionAuth.vaultId s |}))
  | None =>
      match sharedClient with
      | Some c => ret c
      | None => throw (UserError NOT_AUTHENTICATED)
      end
  end.

Definition on_heap {A} (m : M Heap A) : M (Heap * World) A :=
  fun '(h, w) => let '(r, h') := m h in (r, (h', w)).

(** The [execute] that [registerTool] installs: [tool] stands for
    [factory(client).execute(args, context)]. *)
Definition execute (tool : Ref -> M (Heap * World) jsstring)
    (session : option SessionAuth.t) : M (Heap * World) jsstring :=
  client <- on_heap (resolveClient session) ;;
  tool client.

(* ================================================================== *)
(** * Observations used by the statements *)
(* ================================================================== *)

(** The [fetch] calls of a trace, oldest first. *)
Definition fetches (t : list Event) : list Request.t :=
  flat_map (fun e => match e with Fetch rq => [rq] | ReadBody => [] end) t.

Definition with_token (c : OneClawClient) (tok : value) (expiry : number)
  : OneClawClient :=
  {| baseUrl := baseUrl c; token := tok; vaultId := vaultId c;
     agentCredentials := agentCredentials c; tokenExpiresAt := expiry |}.

(** A token is cached and the clock is more than the refresh buffer
    before its expiry. *)
Definition cache_fresh (c : OneClawClient) (w : World) : Prop :=
  truthy (token c) = true /\
  exists e, tokenExpiresAt c = Fin e /\ clock w < e - REFRESH_BUFFER_MS.

Definition cache_freshb (c : OneClawClient) (w : World) : bool :=
  truthy (token c)
  && num_lt (Fin (clock w)) (num_sub (tokenExpiresAt c) (Fin REFRESH_BUFFER_MS)).

(** [n] calls of a method, one after the other. *)
Fixpoint calls {A} (n : nat) (m : Method A) : Method (list A) :=
  match n with
  | O => ret []
  | S k => a <- m ;; rest <- calls k m ;; ret (a :: rest)
  end.




(** An error envelope whose [detail], when there is one, converts to a
    string.  Every string does, so every envelope of the declared shape
    [ApiErrorBody] (where [detail] is a string) is of this kind; what
    does not convert is an object with a [toString] property of its
    own. *)
Definition detail_printable (r : Response.t) : Prop :=
  forall body d,
    Response.json r = Some body ->
    get_prop body (lit "detail") = Some d ->
    ToString d <> None.

Definition http_fallback (r : Response.t) : jsstring :=
  lit "HTTP " ++ show_Z (Response.status r).

(** The [detail] of the envelope of [r] when it has one that is truthy
    (for a string: not empty), and the text [HTTP <status>] otherwise. *)
Definition envelope_detail (r : Response.t) : value :=
  match Response.json r with
  | None => VStr (http_fallback r)
  | Some body =>
      match get_prop body (lit "detail") with
      | None => VStr (http_fallback r)
      | Some d => if truthy d then d else VStr (http_fallback r)
      end
  end.

(** The envelope of [r] has no usable [detail]: the body is not JSON, or
    what it parses to carries no [detail] property. *)
Definition no_detail (r : Response.t) : Prop :=
  match Response.json r with
  | None => True
  | Some (VObj props) => own_prop (lit "detail") props = None
  | Some _ => True
  end.

(** The envelope of [r] has [type] equal to ["resource_limit_exceeded"]. *)
Definition resource_limit (r : Response.t) : Prop :=
  exists body,
    Response.json r = Some body /\
    get_prop body (lit "type") = Some (VStr (lit "resource_limit_exceeded")).

(** The client [resolveClient] builds for a session. *)
Definition session_client (s : SessionAuth.t) : OneClawClient :=
  new_OneClawClient
    (Static {| ClientConfig.baseUrl := ONECLAW_BASE_URL;
               ClientConfig.token := SessionAuth.token s;
               ClientConfig.vaultId := SessionAuth.vaultId s |}).

(* ------------------------------------------------------------------ *)
(** ** Sample data for the concrete runs *)

Definition sample_static : ClientConfig.t :=
  {| ClientConfig.baseUrl := lit "https://api.1claw.xyz/";
     ClientConfig.token := lit "jwt-static";
     ClientConfig.vaultId := lit "vault-1" |}.

Definition sample_agent : AgentCredentials.t :=
  {| AgentCredentials.baseUrl := lit "https://api.1claw.xyz";
     AgentCredentials.agentId := lit "agent-7";
     AgentCredentials.apiKey := lit "ocv_key";
     AgentCredentials.vaultId := lit "vault-1" |}.

Definition sample_session : SessionAuth.t :=
  {| SessionAuth.token := lit "jwt-session"; SessionAuth.vaultId := lit "vault-9" |}.

(** A world at time [now] whose network will give [replies]. *)
Definition world_at (now : Z) (replies : list (Z * Reply)) : World :=
  {| clock := now; incoming := replies; trace := [] |}.

(** A reply with status [st] and parsed body [body], 25 ms later. *)
Definition reply (st : Z) (body : option value) : Z * Reply :=
  (25, Answer {| Response.status := st; Response.json := body |}).

Definition envelope (type detail : string) : value :=
  VObj [(lit "type", VStr (lit type)); (lit "title", VStr (lit "Error"));
        (lit "detail", VStr (lit detail))].

Definition token_grant (access_token : string) (expires_in : Z) : value :=
  VObj [(lit "access_token", VStr (lit access_token));
        (lit "expires_in", VNum (Fin expires_in))].

(** A runtime whose strings are never numbers; the runs below do not
    depend on it. *)
Definition no_numbers : jsstring -> number := fun _ => NaN.

Definition expired_agent_client : OneClawClient :=
  with_token (new_OneClawClient (Agent sample_agent))
    (VStr (lit "jwt-1")) (Fin 3600000).

Definition sample_tool : Ref -> M (Heap * World) jsstring :=
  fun client => ret (lit "done").

Definition sample_url : jsstring := lit "https://api.1claw.xyz/v1/vaults".

Definition static_headers : list (jsstring * jsstring) :=
  [(lit "Authorization", lit "Bearer jwt-static");
   (lit "Content-Type", lit "application/json")].

(* ================================================================== *)
(** * More of client.ts and index.ts, and the tools that call them *)
(* ================================================================== *)

(** client.ts, [get agentId()]. *)
Definition agentId (this : OneClawClient) : value :=
  match agentCredentials this with
  | Some cred => VStr (fst cred)
  | None => VUndefined
  end.

(** What a call leaves alone in its client. *)
Definition same_config (c c' : OneClawClient) : Prop :=
  baseUrl c' = baseUrl c
  /\ vaultId c' = vaultId c
  /\ agentCredentials c' = agentCredentials c.

(** The value of header [k] in an object: its first binding. *)
Fixpoint header (k : jsstring) (o : list (jsstring * jsstring)) : option jsstring :=
  match o with
  | [] => None
  | (k', v) :: rest => if jsstring_eqb k k' then Some v else header k rest
  end.

(* ------------------------------------------------------------------ *)
(** ** String methods used by index.ts *)

(** WhiteSpace and LineTerminator of ECMA-262: what [trim] removes and
    what [\s] matches. *)
Definition is_whitespace (c : N) : bool :=
  existsb (N.eqb c)
    [9; 10; 11; 12; 13; 32; 0xA0; 0x1680; 0x2028; 0x2029; 0x202F; 0x205F;
     0x3000; 0xFEFF]%N
  || in_range 0x2000 0x200A c.

Fixpoint trimStart (s : jsstring) : jsstring :=
  match s with
  | [] => []
  | c :: rest => if is_whitespace c then trimStart rest else s
  end.

Definition trimEnd (s : jsstring) : jsstring := rev (trimStart (rev s)).

Definition trim (s : jsstring) : jsstring := trimEnd (trimStart s).

(** [s.startsWith(p)]. *)
Fixpoint startsWith (p s : jsstring) : bool :=
  match p, s with
  | [], _ => true
  | _ :: _, [] => false
  | a :: p', b :: s' => N.eqb a b && startsWith p' s'
  end.

(** [s.indexOf(c)] for a string [c] of one code unit; [None] is -1. *)
Fixpoint indexOf (c : N) (s : jsstring) : option nat :=
  match s with
  | [] => None
  | x :: rest =>
      if N.eqb x c then Some O else option_map S (indexOf c rest)
  end.

(** Canonicalize of a regular expression with the [i] flag and without
    the [u] flag, on the letters of ["Bearer"]: lower-case ASCII letters
    go to upper case, and no character outside ASCII goes to an ASCII
    one. *)
Definition ascii_upper (c : N) : N :=
  if in_range 97 122 c then (c - 32)%N else c.

(** What is left of [s] after a case-insensitive match of [pat] at its
    start. *)
Fixpoint match_ignoring_case (pat s : jsstring) : option jsstring :=
  match pat, s with
  | [], _ => Some s
  | _ :: _, [] => None
  | p :: pat', c :: s' =>
      if N.eqb (ascii_upper c) (ascii_upper p)
      then match_ignoring_case pat' s'
      else None
  end.

(** [auth.replace(/^Bearer\s+/i, "")]. *)
Definition strip_bearer (auth : jsstring) : jsstring :=
  match match_ignoring_case (lit "Bearer") auth with
  | Some (c :: rest) => if is_whitespace c then trimStart rest else auth
  | _ => auth
  end.

(* ------------------------------------------------------------------ *)
(** ** index.ts: startup and [authenticate] *)

(** [!s] for [s : string | undefined]. *)
Definition missing (s : option jsstring) : bool :=
  match s with
  | None | Some [] => true
  | Some (_ :: _) => false
  end.

(** How the module body ends: [process.exit], or the server running
    with the clients made so far and [sharedClient]. *)
Inductive Boot :=
| Exit (code : Z) (stderr : jsstring)
| Running (h : Heap) (shared : option Ref).

(** The module body up to [resolveClient]; the arguments are
    [process.env.MCP_TRANSPORT], [ONECLAW_AGENT_TOKEN] and
    [ONECLAW_VAULT_ID]. *)
Definition startup (MCP_TRANSPORT ONECLAW_AGENT_TOKEN ONECLAW_VAULT_ID : option jsstring)
  : Boot :=
  let transport :=
    match MCP_TRANSPORT with Some t => t | None => lit "stdio" end in
  if jsstring_eqb transport (lit "stdio") then
    if missing ONECLAW_AGENT_TOKEN then
      Exit 1 (lit "ONECLAW_AGENT_TOKEN is required. Set it as an environment variable.")
    else if missing ONECLAW_VAULT_ID then
      Exit 1 (lit "ONECLAW_VAULT_ID is required. Set it as an environment variable.")
    else
      Running
        [new_OneClawClient
           (Static {| ClientConfig.baseUrl := ONECLAW_BASE_URL;
                      ClientConfig.token :=
                        match ONECLAW_AGENT_TOKEN with Some t => t | None => [] end;
                      ClientConfig.vaultId :=
                        match ONECLAW_VAULT_ID with Some v => v | None => [] end |})]
        (Some O)
  else Running [] None.

(** [serverOpts.authenticate]: the two request headers in, the session
    or the message of the [Error] the promise rejects with out. *)
Definition authenticate (authorization x_vault_id : option jsstring)
  : jsstring + SessionAuth.t :=
  let auth := match authorization with Some a => a | None => [] end in
  let token := trim (strip_bearer auth) in
  let vaultId := match x_vault_id with Some v => v | None => [] end in
  match token with
  | [] => inl (lit "Missing Authorization header (Bearer <agent-token>)")
  | _ :: _ =>
      match vaultId with
      | [] => inl (lit "Missing X-Vault-ID header")
      | _ :: _ => inr {| SessionAuth.token := token; SessionAuth.vaultId := vaultId |}
      end
  end.

(* ------------------------------------------------------------------ *)
(** ** Tools *)

(** What a tool returns: a string written out, or [JSON.stringify] of
    a value with its [space] argument, kept symbolic. *)
Inductive Output :=
| Text (s : jsstring)
| Json (v : value) (space : option Z).

(** A tool runs on its client, the world and the lines given to
    [log.info]. *)
Definition Tool (A : Type) : Type := M (OneClawClient * World * list jsstring) A.

Definition on_client {A} (m : Method A) : Tool A :=
  fun '(cw, lines) => let '(r, cw') := m cw in (r, (cw', lines)).

Definition log_info (msg : jsstring) : Tool unit :=
  fun '(cw, lines) => (Return tt, (cw, lines ++ [msg])).

Definition NO_SECRET (path : jsstring) : jsstring :=
  lit "No secret found at path '" ++ path ++ lit "'.".

Definition SECRET_GONE (path : jsstring) : jsstring :=
  lit "Secret at path '" ++ path
  ++ lit "' is expired or has exceeded its maximum access count.".

(** tools/get_secret.ts, [execute]. *)
Definition getSecretTool (path : jsstring) : Tool Output :=
  try_catch
    (secret <- on_client (getSecret path) ;;
     log_info (lit "secret accessed: " ++ path) ;;
     p <- or_TypeError (get_prop secret (lit "path")) ;;
     t <- or_TypeError (get_prop secret (lit "type")) ;;
     n <- or_TypeError (get_prop secret (lit "version")) ;;
     v <- or_TypeError (get_prop secret (lit "value")) ;;
     ret (Json (VObj [(lit "path", p); (lit "type", t);
                      (lit "version", n); (lit "value", v)]) None))
    (fun err =>
       match err with
       | OneClawApiError e =>
           if status e =? 410 then throw (UserError (SECRET_GONE path))
           else if status e =? 404 then throw (UserError (NO_SECRET path))
           else throw err
       | _ => throw err
       end).

(** tools/delete_secret.ts, [execute]. *)
Definition deleteSecretTool (path : jsstring) : Tool Output :=
  try_catch
    (on_client (deleteSecret path) ;;
     log_info (lit "secret deleted: " ++ path) ;;
     ret (Text (lit "Secret at '" ++ path ++ lit "' has been soft-deleted.")))
    (fun err =>
       match err with
       | OneClawApiError e =>
           if status e =? 404 then throw (UserError (NO_SECRET path))
           else throw err
       | _ => throw err
       end).

(** [env[k] = v] on an object made by [{}]: the name [__proto__] is the
    accessor of [Object.prototype], whose setter ignores a string.  The
    list holds the properties in the order in which they were created,
    which is the order in which [JSON.stringify] writes them, names that
    are array indices apart (those it writes first). *)
Definition set_property (k v : jsstring) (env : list (jsstring * jsstring))
  : list (jsstring * jsstring) :=
  if jsstring_eqb k (lit "__proto__") then env else assign k v env.

(** One turn of the loop of [get_env_bundle]. *)
Definition env_line (env : list (jsstring * jsstring)) (line : jsstring)
  : list (jsstring * jsstring) :=
  let trimmed := trim line in
  match trimmed with
  | [] => env
  | _ :: _ =>
      if startsWith (lit "#") trimmed then env
      else match indexOf 61 trimmed with
           | None => env
           | Some eqIdx =>
               set_property (firstn eqIdx trimmed) (skipn (S eqIdx) trimmed) env
           end
  end.

(** The loop of [get_env_bundle] over [value.split("\n")]. *)
Definition parse_env_bundle (value : jsstring) : list (jsstring * jsstring) :=
  fold_left env_line (split 10 value) [].

Definition NOT_A_BUNDLE (path : jsstring) (type : jsstring) : jsstring :=
  lit "Secret at '" ++ path ++ lit "' is type '" ++ type
  ++ lit "', not 'env_bundle'.".

(** index.ts, the [execute] of [get_env_bundle], on the client that
    [resolveClient] returned. *)
Definition get_env_bundle (path : jsstring) : Tool Output :=
  try_catch
    (secret <- on_client (getSecret path) ;;
     log_info (lit "env_bundle accessed: " ++ path) ;;
     type <- or_TypeError (get_prop secret (lit "type")) ;;
     (if strict_eq_string type (lit "env_bundle") then ret tt
      else shown <- or_TypeError (ToString type) ;;
           throw (UserError (NOT_A_BUNDLE path shown))) ;;
     text <- or_TypeError (get_prop secret (lit "value")) ;;
     match text with
     | VStr s =>
         ret (Json (VObj (map (fun kv => (fst kv, VStr (snd kv)))
                            (parse_env_bundle s)))
                   (Some 2))
     | _ => throw TypeError
     end)
    (fun err =>
       match err with
       | OneClawApiError e =>
           if status e =? 410 then throw (UserError (SECRET_GONE path))
           else if status e =? 404 then throw (UserError (NO_SECRET path))
           else throw err
       | _ => throw err
       end).

(** What reaches the caller of [get_secret] or [get_env_bundle] when
    [err] is thrown inside the [try]. *)
Definition remap_get (path : jsstring) (err : Exn) : Exn :=
  match err with
  | OneClawApiError e =>
      if status e =? 410 then UserError (SECRET_GONE path)
      else if status e =? 404 then UserError (NO_SECRET path)
      else err
  | _ => err
  end.

(** The same for [delete_secret]. *)
Definition remap_delete (path : jsstring) (err : Exn) : Exn :=
  match err with
  | OneClawApiError e =>
      if status e =? 404 then UserError (NO_SECRET path) else err
  | _ => err
  end.

(** A line [k=v] of a bundle. *)
Definition bundle_line (kv : jsstring * jsstring) : jsstring :=
  fst kv ++ [61%N] ++ snd kv.

(** A name that a line of a bundle can carry as it is. *)
Definition plain_key (k : jsstring) : Prop :=
  ~ In 61%N k /\ ~ In 10%N k
  /\ trimStart k = k
  /\ startsWith (lit "#") k = false
  /\ k <> lit "__proto__".

(** A value that a line of a bundle can carry as it is. *)
Definition plain_value (v : jsstring) : Prop :=
  ~ In 10%N v /\ trimEnd v = v.

(** A secret of type [env_bundle] as the vault returns it: a line, a
    comment and a line with white space around its name and value. *)
Definition sample_bundle : value :=
  VObj [(lit "type", VStr (lit "env_bundle"));
        (lit "value",
         VStr (join [10%N] [lit "A=1"; lit "# note"; lit " B = 2 "]))].

(* ================================================================== *)
(** * Strings: splitting, joining and percent-encoding *)
(* ================================================================== *)


Lemma split_nonempty sep s : split sep s <> [].
Proof.
  destruct s as [ | c rest ]; simpl; [ discriminate | ].
  destruct (N.eqb c sep); [ discriminate | ].
  destruct (split sep rest); discriminate.
Qed.

Lemma split_cons_other sep c rest :
  c <> sep ->
  exists seg segs,
    split sep rest = seg :: segs /\ split sep (c :: rest) = (c :: seg) :: segs.
Proof.
  intros Hc. simpl.
  destruct (N.eqb_spec c sep) as [ E | _ ]; [ contradiction | ].
  destruct (split sep rest) as [ | seg segs ] eqn:Hs.
  - exfalso. exact (split_nonempty _ _ Hs).
  - exists seg, segs. auto.
Qed.

Lemma split_cons_sep sep rest : split sep (sep :: rest) = [] :: split sep rest.
Proof. simpl. rewrite N.eqb_refl. reflexivity. Qed.

Lemma split_free sep s : Forall (fun seg => ~ In sep seg) (split sep s).
Proof.
  induction s as [ | c rest IH ].
  - repeat constructor. intros [].
  - destruct (N.eq_dec c sep) as [ -> | Hc ].
    + rewrite split_cons_sep. constructor; [ intros [] | exact IH ].
    + destruct (split_cons_other rest Hc) as (seg & segs & Hs & ->).
      rewrite Hs in IH. inversion IH as [ | ? ? Hseg Hsegs ]; subst.
      constructor; [ | exact Hsegs ].
      intros [ E | Hin ]; [ congruence | exact (Hseg Hin) ].
Qed.

Lemma join_split sep s : join [sep] (split sep s) = s.
Proof.
  induction s as [ | c rest IH ]; [ reflexivity | ].
  destruct (N.eq_dec c sep) as [ -> | Hc ].
  - rewrite split_cons_sep.
    destruct (split sep rest) as [ | seg segs ] eqn:Hs.
    + exfalso. exact (split_nonempty _ _ Hs).
    + change (join [sep] ([] :: seg :: segs)) with (sep :: join [sep] (seg :: segs)).
      now rewrite IH.
  - destruct (split_cons_other rest Hc) as (seg & segs & Hs & ->).
    rewrite Hs in IH. rewrite <- IH.
    destruct segs; reflexivity.
Qed.

Lemma split_segment sep seg : ~ In sep seg -> split sep seg = [seg].
Proof.
  induction seg as [ | c seg IH ]; intros Hfree; [ reflexivity | ].
  assert (Hc : c <> sep) by (intros ->; apply Hfree; now left).
  destruct (split_cons_other seg Hc) as (s1 & ss & Hs & ->).
  rewrite IH in Hs by (intros Hin; apply Hfree; now right).
  now inversion Hs.
Qed.

Lemma split_app_sep sep seg rest :
  ~ In sep seg -> split sep (seg ++ sep :: rest) = seg :: split sep rest.
Proof.
  induction seg as [ | c seg IH ]; intros Hfree.
  - apply split_cons_sep.
  - assert (Hc : c <> sep) by (intros ->; apply Hfree; now left).
    destruct (split_cons_other (seg ++ sep :: rest) Hc) as (s1 & ss & Hs & E).
    change ((c :: seg) ++ sep :: rest) with (c :: seg ++ sep :: rest).
    rewrite E. rewrite IH in Hs by (intros Hin; apply Hfree; now right).
    now inversion Hs.
Qed.

Lemma split_join sep segs :
  segs <> [] ->
  Forall (fun seg => ~ In sep seg) segs ->
  split sep (join [sep] segs) = segs.
Proof.
  induction segs as [ | seg segs IH ]; intros Hne Hfree; [ contradiction | ].
  inversion Hfree as [ | ? ? Hseg Hsegs ]; subst.
  destruct segs as [ | seg' segs ].
  - apply split_segment; assumption.
  - change (join [sep] (seg :: seg' :: segs))
      with (seg ++ sep :: join [sep] (seg' :: segs)).
    rewrite split_app_sep by assumption.
    rewrite IH; [ reflexivity | discriminate | assumption ].
Qed.



(** ** The alphabet of an encoded component *)










(** ** Which paths can be encoded *)






Example encodePath_non_ascii :
  encodePath [0xE9; slash; 0xD83D; 0xDE00; 0x25]%N
  = Some (lit "%C3%A9/%F0%9F%98%80%25").
Proof. reflexivity. Qed.

Example encodePath_keeps_empty_pieces :
  encodePath (lit "/a//b/") = Some (lit "/a//b/").
Proof. reflexivity. Qed.

Example encodePath_lone_surrogate : encodePath [97; 0xD83D; 98]%N = None.
Proof. reflexivity. Qed.


(* ================================================================== *)
(** * Token resolution *)
(* ================================================================== *)

Arguments lit : simpl never.
Arguments show_Z : simpl never.
Arguments num_lt : simpl never.
Arguments num_sub : simpl never.
Arguments num_add : simpl never.
Arguments num_mul : simpl never.
Arguments ToString : simpl never.
Arguments exchange_request : simpl never.
Arguments answered : simpl never.
Arguments log : simpl never.

Ltac run :=
  unfold bind, ret, throw, try_catch, or_TypeError, get_this, Date_now,
    set_token, set_tokenExpiresAt; simpl.

Lemma fetches_app t1 t2 : fetches (t1 ++ t2) = fetches t1 ++ fetches t2.
Proof. unfold fetches. apply flat_map_app. Qed.

Lemma fetches_ReadBody t : fetches (t ++ [ReadBody]) = fetches t.
Proof. rewrite fetches_app. simpl. apply app_nil_r. Qed.

Lemma fetches_Fetch t rq : fetches (t ++ [Fetch rq]) = fetches t ++ [rq].
Proof. rewrite fetches_app. reflexivity. Qed.

Lemma ensureToken_static c w :
  agentCredentials c = None -> ensureToken (c, w) = (Return tt, (c, w)).
Proof. intros H. unfold ensureToken. run. now rewrite H. Qed.

Lemma cache_freshb_spec c w : cache_freshb c w = true <-> cache_fresh c w.
Proof.
  unfold cache_freshb, cache_fresh. rewrite andb_true_iff.
  split; intros [ Ht H ]; split; try exact Ht.
  - destruct (tokenExpiresAt c) as [ e | ]; simpl in H; [ | discriminate ].
    exists e. split; [ reflexivity | now apply Z.ltb_lt ].
  - destruct H as (e & -> & H). simpl. now apply Z.ltb_lt.
Qed.

Lemma fresh_check c w (k : bool -> Method unit) :
  bind (if truthy (token c)
        then now <- Date_now ;;
             ret (num_lt (Fin now)
                    (num_sub (tokenExpiresAt c) (Fin REFRESH_BUFFER_MS)))
        else ret false) k (c, w)
  = k (cache_freshb c w) (c, w).
Proof.
  unfold cache_freshb, bind, Date_now, ret.
  destruct (truthy (token c)); reflexivity.
Qed.

Ltac enter_ensureToken Hcred :=
  unfold ensureToken; unfold bind at 1, get_this at 1; cbn [fst];
  rewrite Hcred, fresh_check.

Ltac exec :=
  unfold bind, ret, throw, try_json, try_catch, or_TypeError, Response_json,
    fetch, Date_now, set_token, set_tokenExpiresAt; simpl.

Lemma ensureToken_fresh c cred w :
  agentCredentials c = Some cred ->
  cache_fresh c w ->
  ensureToken (c, w) = (Return tt, (c, w)).
Proof.
  intros H Hf%cache_freshb_spec. enter_ensureToken H. now rewrite Hf.
Qed.

Lemma ensureToken_stale_fetches c cred w :
  agentCredentials c = Some cred ->
  ~ cache_fresh c w ->
  fetches (trace (snd (snd (ensureToken (c, w)))))
  = fetches (trace w) ++ [exchange_request c cred].
Proof.
  intros H Hf. rewrite <- cache_freshb_spec in Hf.
  apply not_true_is_false in Hf.
  enter_ensureToken H. rewrite Hf. exec.
  destruct (incoming w) as [ | [ dt [ | r ] ] rest ]; simpl;
    try apply fetches_Fetch.
  destruct (Response.ok r); simpl.
  - destruct (Response.json r) as [ data | ]; simpl.
    + destruct (get_prop data (lit "access_token")); simpl.
      * destruct (get_prop data (lit "expires_in")) as [ e | ]; simpl.
        -- destruct (ToNumber e); simpl;
             rewrite fetches_ReadBody; apply fetches_Fetch.
        -- rewrite fetches_ReadBody; apply fetches_Fetch.
      * rewrite fetches_ReadBody; apply fetches_Fetch.
    + rewrite fetches_ReadBody; apply fetches_Fetch.
  - destruct (Response.json r) as [ body | ]; simpl.
    + destruct (get_prop body (lit "detail")) as [ d | ]; simpl.
      * destruct (truthy d); simpl.
        -- destruct (ToString d); simpl;
             rewrite fetches_ReadBody; apply fetches_Fetch.
        -- rewrite fetches_ReadBody; apply fetches_Fetch.
      * rewrite fetches_ReadBody; apply fetches_Fetch.
    + rewrite fetches_ReadBody; apply fetches_Fetch.
Qed.

Lemma new_OneClawApiError_VStr st s :
  new_OneClawApiError st (VStr s)
  = OneClawApiError {| status := st; detail := VStr s; message := s |}.
Proof. reflexivity. Qed.

(** A successful exchange stores the token and the expiry it announces. *)
Lemma ensureToken_granted c cred w dt r rest data tok secs :
  agentCredentials c = Some cred ->
  ~ cache_fresh c w ->
  incoming w = (dt, Answer r) :: rest ->
  Response.ok r = true ->
  Response.json r = Some data ->
  get_prop data (lit "access_token") = Some tok ->
  get_prop data (lit "expires_in") = Some (VNum (Fin secs)) ->
  ensureToken (c, w)
  = (Return tt,
     (with_token c tok (Fin (clock w + dt + secs * 1000)),
      log ReadBody (answered (exchange_request c cred) dt rest w))).
Proof.
  intros H Hf Hin Hok Hj Htok Hexp. rewrite <- cache_freshb_spec in Hf.
  apply not_true_is_false in Hf.
  enter_ensureToken H. rewrite Hf. exec.
  rewrite Hin. simpl. rewrite Hok. simpl. rewrite Hj. simpl.
  rewrite Htok. simpl. rewrite Hexp. reflexivity.
Qed.

(** An exchange that is refused throws and stores nothing. *)
Lemma ensureToken_rejected c cred w dt r rest :
  agentCredentials c = Some cred ->
  ~ cache_fresh c w ->
  incoming w = (dt, Answer r) :: rest ->
  Response.ok r = false ->
  exists ex,
    ensureToken (c, w)
    = (Throw ex, (c, log ReadBody (answered (exchange_request c cred) dt rest w)))
    /\ (ex = TypeError \/
        exists text,
          ex = OneClawApiError
                 {| status := Response.status r;
                    detail := VStr (lit "Agent auth failed: " ++ text);
                    message := lit "Agent auth failed: " ++ text |})
    /\ (detail_printable r -> ex <> TypeError)
    /\ (no_detail r ->
        ex = OneClawApiError
               {| status := Response.status r;
                  detail := VStr (lit "Agent auth failed: " ++ lit "HTTP "
                                  ++ show_Z (Response.status r));
                  message := lit "Agent auth failed: " ++ lit "HTTP "
                             ++ show_Z (Response.status r) |}).
Proof.
  intros H Hf Hin Hok. rewrite <- cache_freshb_spec in Hf.
  apply not_true_is_false in Hf.
  enter_ensureToken H. rewrite Hf. exec.
  rewrite Hin. simpl. rewrite Hok. simpl.
  unfold detail_printable, no_detail.
  set (fb := lit "HTTP " ++ show_Z (Response.status r)).
  assert (Hfb : forall s' : OneClawClient * World,
            exists ex : Exn,
              (Throw (A := unit)
                 (new_OneClawApiError (Response.status r)
                    (VStr (lit "Agent auth failed: " ++ fb))), s')
              = (Throw ex, s')
              /\ (ex = TypeError \/
                  exists text,
                    ex = OneClawApiError
                           {| status := Response.status r;
                              detail := VStr (lit "Agent auth failed: " ++ text);
                              message := lit "Agent auth failed: " ++ text |})
              /\ ex <> TypeError
              /\ ex = OneClawApiError
                        {| status := Response.status r;
                           detail := VStr (lit "Agent auth failed: " ++ fb);
                           message := lit "Agent auth failed: " ++ fb |}).
  { intros s'. eexists. split; [ reflexivity | ].
    rewrite new_OneClawApiError_VStr.
    split; [ right; now exists fb | ]. split; [ discriminate | reflexivity ]. }
  destruct (Response.json r) as [ body | ] eqn:Hj; simpl.
  2:{ destruct (Hfb (c, log ReadBody (answered (exchange_request c cred) dt rest w)))
        as (ex & E & H1 & H2 & H3).
      exists ex. auto. }
  destruct (get_prop body (lit "detail")) as [ d | ] eqn:Hd; simpl.
  2:{ destruct (Hfb (c, log ReadBody (answered (exchange_request c cred) dt rest w)))
        as (ex & E & H1 & H2 & H3).
      exists ex. repeat split; auto. }
  destruct (truthy d) eqn:Ht.
  2:{ destruct (Hfb (c, log ReadBody (answered (exchange_request c cred) dt rest w)))
        as (ex & E & H1 & H2 & H3).
      exists ex. repeat split; auto. }
  destruct (ToString d) as [ text | ] eqn:Hs; simpl.
  - eexists. split; [ reflexivity | ]. rewrite new_OneClawApiError_VStr.
    split; [ right; now exists text | ]. split; [ discriminate | ].
    intros Hnd. exfalso. destruct body; simpl in Hd; inversion Hd; subst;
      try discriminate Ht.
    rewrite Hnd in Ht. discriminate Ht.
  - exists TypeError. split; [ reflexivity | ]. split; [ now left | ].
    split.
    + intros Hp. exfalso. exact (Hp body d eq_refl Hd Hs).
    + intros Hnd. exfalso. destruct body; simpl in Hd; inversion Hd; subst;
        try discriminate Ht.
      rewrite Hnd in Ht. discriminate Ht.
Qed.

Lemma calls_unchanged (A : Type) (m : Method A) (a : A) s n :
  m s = (Return a, s) -> calls n m s = (Return (repeat a n), s).
Proof.
  intros H. induction n as [ | n IH ]; [ reflexivity | ].
  simpl. unfold bind. rewrite H, IH. reflexivity.
Qed.

Lemma new_agent_not_fresh a w : ~ cache_fresh (new_OneClawClient (Agent a)) w.
Proof. intros [ Ht _ ]. discriminate Ht. Qed.

Lemma expired_not_fresh (c : OneClawClient) (w : World) (e : Z) :
  tokenExpiresAt c = Fin e -> e - REFRESH_BUFFER_MS <= clock w ->
  ~ cache_fresh c w.
Proof.
  intros He Hle (_ & e' & He' & Hlt). rewrite He in He'.
  inversion He'. subst. lia.
Qed.

(** C1.  With agent credentials, the first token resolution of a new
    client sends exactly one request, and that request is the token
    exchange: a [POST] to the base URL followed by
    [/v1/auth/agent-token], with a JSON content type, whose body is the
    JSON text of [{agent_id, api_key}] holding the configured agent id
    and API key.  While a token is cached and the clock is earlier than
    its expiry minus 60 seconds, a resolution sends nothing and changes
    neither the client nor the world.  From that instant on, a
    resolution sends exactly one request, again that token-exchange
    [POST], and when the exchange answers with a 2xx body carrying
    [access_token] and [expires_in], the token becomes that
    [access_token] and the expiry becomes the time of the answer plus
    [expires_in] seconds. *)
Theorem ensureToken_exchange_schedule :
  (forall (a : AgentCredentials.t) (w : World),
     let c := new_OneClawClient (Agent a) in
     exists rq,
       fetches (trace (snd (snd (ensureToken (c, w)))))
       = fetches (trace w) ++ [rq]
       /\ Request.method rq = Some (lit "POST")
       /\ Request.url rq
          = strip_trailing_slash (AgentCredentials.baseUrl a)
            ++ lit "/v1/auth/agent-token"
       /\ Request.headers rq = [(lit "Content-Type", lit "application/json")]
       /\ Request.body rq
          = Some (JSON_stringify
                    (VObj [(lit "agent_id", VStr (AgentCredentials.agentId a));
                           (lit "api_key", VStr (AgentCredentials.apiKey a))])))
  /\
  (forall c cred w e,
     agentCredentials c = Some cred ->
     truthy (token c) = true ->
     tokenExpiresAt c = Fin e ->
     clock w < e - REFRESH_BUFFER_MS ->
     ensureToken (c, w) = (Return tt, (c, w)))
  /\
  (forall c cred w e,
     agentCredentials c = Some cred ->
     tokenExpiresAt c = Fin e ->
     e - REFRESH_BUFFER_MS <= clock w ->
     (exists rq,
        fetches (trace (snd (snd (ensureToken (c, w)))))
        = fetches (trace w) ++ [rq]
        /\ Request.method rq = Some (lit "POST")
        /\ Request.url rq = baseUrl c ++ lit "/v1/auth/agent-token"
        /\ Request.headers rq = [(lit "Content-Type", lit "application/json")]
        /\ Request.body rq
           = Some (JSON_stringify
                     (VObj [(lit "agent_id", VStr (fst cred));
                            (lit "api_key", VStr (snd cred))])))
     /\
     forall dt r rest data tok secs,
       incoming w = (dt, Answer r) :: rest ->
       Response.ok r = true ->
       Response.json r = Some data ->
       get_prop data (lit "access_token") = Some tok ->
       get_prop data (lit "expires_in") = Some (VNum (Fin secs)) ->
       fst (ensureToken (c, w)) = Return tt
       /\ fst (snd (ensureToken (c, w)))
          = with_token c tok (Fin (clock w + dt + secs * 1000))).
Proof.
  split; [ | split ].
  - intros a w c.
    exists (exchange_request c
              (AgentCredentials.agentId a, AgentCredentials.apiKey a)).
    split; [ | repeat split ].
    apply ensureToken_stale_fetches;
      [ reflexivity | apply new_agent_not_fresh ].
  - intros c cred w e Hc Ht He Hlt. apply ensureToken_fresh with cred;
      [ exact Hc | ]. split; [ exact Ht | now exists e ].
  - intros c cred w e Hc He Hle.
    pose proof (@expired_not_fresh c w e He Hle) as Hf.
    split.
    { exists (exchange_request c cred).
      split; [ now apply ensureToken_stale_fetches | repeat split ]. }
    intros dt r rest data tok secs Hin Hok Hj Htok Hexp.
    rewrite (ensureToken_granted Hc Hf Hin Hok Hj Htok Hexp).
    split; reflexivity.
Qed.

(** C10.  When the exchange is answered with a status outside 2xx, token
    resolution throws and the client is left exactly as it was, cached
    token and expiry included; the exception is a [OneClawApiError] with
    the status of the answer whose detail starts with
    ["Agent auth failed: "]. *)
Theorem exchange_failure_keeps_cache :
  forall c cred w dt r rest,
    agentCredentials c = Some cred ->
    ~ cache_fresh c w ->
    incoming w = (dt, Answer r) :: rest ->
    Response.ok r = false ->
    exists ex w',
      ensureToken (c, w) = (Throw ex, (c, w'))
      /\ token (fst (snd (ensureToken (c, w)))) = token c
      /\ tokenExpiresAt (fst (snd (ensureToken (c, w)))) = tokenExpiresAt c
      /\ (detail_printable r ->
          exists text,
            ex = OneClawApiError
                   {| status := Response.status r;
                      detail := VStr (lit "Agent auth failed: " ++ text);
                      message := lit "Agent auth failed: " ++ text |}).
Proof.
  intros c cred w dt r rest Hc Hf Hin Hok.
  destruct (ensureToken_rejected Hc Hf Hin Hok) as (ex & E & Hex & Hnot & _).
  exists ex. eexists. rewrite E. repeat split.
  intros Hp. destruct Hex as [ -> | Hex ]; [ | exact Hex ].
  exfalso. now apply Hnot.
Qed.

(* ================================================================== *)
(** * The request executor *)
(* ================================================================== *)

Arguments fetch_args : simpl never.
Arguments QUOTA_EXHAUSTED : simpl never.
Arguments resource_limit_detail : simpl never.

Lemma read_envelope_detail r :
  fst (read_envelope (Response.json r) (VStr (http_fallback r)))
  = envelope_detail r.
Proof.
  unfold read_envelope, envelope_detail.
  destruct (Response.json r) as [ body | ]; [ | reflexivity ].
  destruct (get_prop body (lit "detail")) as [ d | ]; [ | reflexivity ].
  destruct (get_prop body (lit "type")); reflexivity.
Qed.

Lemma get_prop_twice (body : value) (k k' : jsstring) (v : value) :
  get_prop body k = Some v -> get_prop body k' <> None.
Proof. destruct body; simpl; congruence. Qed.

(** The [errorType] that [request] compares is the resource-limit name
    exactly when the envelope says so. *)
Lemma read_envelope_type r :
  strict_eq_string
    (snd (read_envelope (Response.json r) (VStr (http_fallback r))))
    (lit "resource_limit_exceeded") = true
  <-> resource_limit r.
Proof.
  unfold read_envelope, resource_limit.
  destruct (Response.json r) as [ body | ].
  2:{ split; [ discriminate | intros (b & Hb & _); discriminate ]. }
  destruct (get_prop body (lit "detail")) as [ d | ] eqn:Hd.
  2:{ split; [ discriminate | ]. intros (b & Hb & Ht). inversion Hb; subst.
      exfalso. exact (@get_prop_twice _ _ (lit "detail") _ Ht Hd). }
  destruct (get_prop body (lit "type")) as [ t | ] eqn:Ht.
  2:{ split; [ discriminate | ]. intros (b & Hb & Ht'). inversion Hb; subst.
      congruence. }
  simpl. split.
  - intros H. exists body. split; [ reflexivity | ].
    destruct (truthy t); [ | discriminate ].
    destruct t; try discriminate. simpl in H. unfold jsstring_eqb in H.
    destruct (list_eq_dec N.eq_dec s (lit "resource_limit_exceeded"));
      [ now subst | discriminate ].
  - intros (b & Hb & Ht'). inversion Hb; subst. rewrite Ht in Ht'.
    inversion Ht'. reflexivity.
Qed.

(** [request] once the headers are there and the reply has come. *)
Lemma request_answered c w url init hdrs c1 w1 dt r rest :
  headers (c, w) = (Return hdrs, (c1, w1)) ->
  incoming w1 = (dt, Answer r) :: rest ->
  let w2 := answered (fetch_args url init hdrs) dt rest w1 in
  request url init (c, w) =
  if Response.ok r then
    if Response.status r =? 204 then (Return VUndefined, (c1, w2))
    else
      (match Response.json r with
       | Some v => Return v
       | None => Throw SyntaxError
       end, (c1, log ReadBody w2))
  else
    (Throw
       (if Response.status r =? 402
        then new_OneClawApiError 402 (VStr QUOTA_EXHAUSTED)
        else if (Response.status r =? 403)
                && strict_eq_string
                     (snd (read_envelope (Response.json r)
                             (VStr (http_fallback r))))
                     (lit "resource_limit_exceeded")
        then match ToString (envelope_detail r) with
             | Some text => new_OneClawApiError 403 (VStr (resource_limit_detail text))
             | None => TypeError
             end
        else new_OneClawApiError (Response.status r) (envelope_detail r)),
     (c1, log ReadBody w2)).
Proof.
  intros Hh Hin w2. unfold request. unfold bind at 1. rewrite Hh.
  unfold bind at 1, fetch at 1. rewrite Hin. fold w2. cbv beta iota.
  destruct (Response.ok r); cbn [negb]; cbv iota.
  - destruct (Response.status r =? 204); [ reflexivity | ].
    unfold Response_json. destruct (Response.json r); reflexivity.
  - rewrite <- read_envelope_detail. fold (http_fallback r).
    unfold bind at 1, try_json, try_catch, bind, Response_json, ret.
    destruct (Response.json r) as [ body | ];
      cbv beta iota;
      destruct (read_envelope _ _) as [ detail errorType ]; cbn [fst snd];
      (destruct (Response.status r =? 402); [ reflexivity | ]);
      (destruct ((Response.status r =? 403) && _); [ | reflexivity ]);
      unfold or_TypeError, bind, throw, ret;
      destruct (ToString detail); reflexivity.
Qed.

Lemma headers_static c w bearer :
  agentCredentials c = None ->
  ToString (token c) = Some bearer ->
  headers (c, w)
  = (Return [(lit "Authorization", lit "Bearer " ++ bearer);
             (lit "Content-Type", lit "application/json")],
     (c, w)).
Proof.
  intros Hc Hb. unfold headers. unfold bind at 1.
  rewrite (ensureToken_static c w Hc).
  unfold bind, get_this, or_TypeError, ret. cbn [fst]. now rewrite Hb.
Qed.

(** Whatever [request] fetches on a static-token client is the request
    itself. *)
Lemma request_static_fetches c w bearer url init :
  agentCredentials c = None ->
  ToString (token c) = Some bearer ->
  fetches (trace (snd (snd (request url init (c, w)))))
  = fetches (trace w)
    ++ [fetch_args url init
          [(lit "Authorization", lit "Bearer " ++ bearer);
           (lit "Content-Type", lit "application/json")]].
Proof.
  intros Hc Hb. pose proof (headers_static c w Hc Hb) as Hh.
  destruct (incoming w) as [ | [ dt [ | r ] ] rest ] eqn:Hin.
  - unfold request. unfold bind at 1. rewrite Hh.
    unfold bind at 1, fetch at 1. rewrite Hin. apply fetches_Fetch.
  - unfold request. unfold bind at 1. rewrite Hh.
    unfold bind at 1, fetch at 1. rewrite Hin. apply fetches_Fetch.
  - rewrite (@request_answered c w url init _ c w dt r rest Hh Hin).
    destruct (Response.ok r).
    + destruct (Response.status r =? 204); [ apply fetches_Fetch | ].
      cbn [snd]. unfold log at 1. cbn [trace].
      rewrite fetches_ReadBody. apply fetches_Fetch.
    + cbn [snd]. unfold log at 1. cbn [trace].
      rewrite fetches_ReadBody. apply fetches_Fetch.
Qed.

(** C2.  A client built from a static token answers every token
    resolution, in whatever world and however many there are, with the
    configured token itself: the cached token is that string, the
    [Authorization] header carries it, and neither the client nor the
    world changes, so no exchange is ever sent; the only request that
    [request] sends is its own. *)
Theorem static_token_never_exchanges :
  forall (cfg : ClientConfig.t),
    let c := new_OneClawClient (Static cfg) in
    let hdrs := [(lit "Authorization", lit "Bearer " ++ ClientConfig.token cfg);
                 (lit "Content-Type", lit "application/json")] in
    token c = VStr (ClientConfig.token cfg)
    /\ (forall w, ensureToken (c, w) = (Return tt, (c, w)))
    /\ (forall w, headers (c, w) = (Return hdrs, (c, w)))
    /\ (forall n w,
          calls n ensureToken (c, w) = (Return (repeat tt n), (c, w))
          /\ calls n headers (c, w) = (Return (repeat hdrs n), (c, w)))
    /\ (forall url init w,
          fetches (trace (snd (snd (request url init (c, w)))))
          = fetches (trace w) ++ [fetch_args url init hdrs]).
Proof.
  intros cfg c hdrs.
  assert (He : forall w, ensureToken (c, w) = (Return tt, (c, w)))
    by (intros w; apply ensureToken_static; reflexivity).
  assert (Hh : forall w, headers (c, w) = (Return hdrs, (c, w)))
    by (intros w; apply headers_static; reflexivity).
  split; [ reflexivity | ]. split; [ exact He | ]. split; [ exact Hh | ].
  split.
  - intros n w. split; apply calls_unchanged; auto.
  - intros url init w. apply request_static_fetches; reflexivity.
Qed.

Lemma Error_message_truthy d : truthy d = true -> Error_message d = ToString d.
Proof. destruct d; simpl; intros H; (reflexivity || discriminate H). Qed.

Lemma envelope_detail_truthy r : truthy (envelope_detail r) = true.
Proof.
  unfold envelope_detail.
  destruct (Response.json r) as [ body | ]; [ | reflexivity ].
  destruct (get_prop body (lit "detail")) as [ d | ]; [ | reflexivity ].
  destruct (truthy d) eqn:Ht; [ exact Ht | reflexivity ].
Qed.

Lemma new_OneClawApiError_envelope r :
  new_OneClawApiError (Response.status r) (envelope_detail r)
  = match ToString (envelope_detail r) with
    | Some m => OneClawApiError {| status := Response.status r;
                                   detail := envelope_detail r;
                                   message := m |}
    | None => TypeError
    end.
Proof.
  unfold new_OneClawApiError.
  now rewrite (Error_message_truthy _ (envelope_detail_truthy r)).
Qed.

(** An envelope typed as [ApiErrorBody] has a printable detail. *)
Lemma string_detail_printable r :
  (forall body d,
     Response.json r = Some body ->
     get_prop body (lit "detail") = Some d ->
     d = VUndefined \/ exists s, d = VStr s) ->
  detail_printable r.
Proof.
  intros H body d Hj Hd.
  destruct (H body d Hj Hd) as [ -> | (s & ->) ]; discriminate.
Qed.

Lemma envelope_detail_printable r :
  detail_printable r -> ToString (envelope_detail r) <> None.
Proof.
  unfold detail_printable, envelope_detail. intros Hp.
  destruct (Response.json r) as [ body | ]; [ | discriminate ].
  destruct (get_prop body (lit "detail")) as [ d | ] eqn:Hd; [ | discriminate ].
  destruct (truthy d); [ | discriminate ].
  exact (Hp body d eq_refl Hd).
Qed.

Lemma envelope_detail_absent r :
  no_detail r -> envelope_detail r = VStr (http_fallback r).
Proof.
  unfold no_detail, envelope_detail.
  destruct (Response.json r) as [ body | ]; [ | reflexivity ].
  destruct body; try reflexivity. simpl. now intros ->.
Qed.

Lemma envelope_detail_string r body d :
  Response.json r = Some body ->
  get_prop body (lit "detail") = Some (VStr d) ->
  envelope_detail r = VStr d \/ (d = [] /\ envelope_detail r = VStr (http_fallback r)).
Proof.
  intros Hj Hd. unfold envelope_detail. rewrite Hj, Hd.
  destruct d; simpl; [ right | left ]; auto.
Qed.

Lemma is_infix_nil s : is_infix [] s.
Proof. exists [], s. reflexivity. Qed.

Lemma resource_limit_detail_infix text :
  is_infix text (resource_limit_detail text)
  /\ is_infix BILLING_URL (resource_limit_detail text).
Proof.
  unfold resource_limit_detail. split.
  - eexists _, _. reflexivity.
  - exists (lit "Resource limit reached: " ++ text
            ++ lit ". Ask your human to upgrade the plan at "), [].
    rewrite app_nil_r, <- !app_assoc. reflexivity.
Qed.

Lemma not_ok_402 r : Response.status r = 402 -> Response.ok r = false.
Proof. intros H. unfold Response.ok. now rewrite H. Qed.

Lemma not_ok_403 r : Response.status r = 403 -> Response.ok r = false.
Proof. intros H. unfold Response.ok. now rewrite H. Qed.

Lemma ok_204 r : Response.status r = 204 -> Response.ok r = true.
Proof. intros H. unfold Response.ok. now rewrite H. Qed.

Lemma agent_auth_failed_is_not_quota text :
  lit "Agent auth failed: " ++ text <> QUOTA_EXHAUSTED.
Proof. discriminate. Qed.

Lemma request_402 c w url init hdrs c1 w1 dt r rest :
  headers (c, w) = (Return hdrs, (c1, w1)) ->
  incoming w1 = (dt, Answer r) :: rest ->
  Response.status r = 402 ->
  fst (request url init (c, w))
  = Throw (OneClawApiError
             {| status := 402;
                detail := VStr QUOTA_EXHAUSTED;
                message := QUOTA_EXHAUSTED |}).
Proof.
  intros Hh Hin Hs.
  rewrite (@request_answered c w url init hdrs c1 w1 dt r rest Hh Hin).
  rewrite (not_ok_402 r Hs), Hs. reflexivity.
Qed.

(** The endpoint methods are [request] at a URL; the ones that take a
    path raise [URIError] before anything is sent when the path cannot
    be encoded. *)
Lemma endpoints_use_request c w path body :
  listSecrets (c, w) = request (vaultUrl c (lit "/secrets")) None (c, w)
  /\ match encodePath path with
     | None =>
         getSecret path (c, w) = (Throw URIError, (c, w))
         /\ putSecret path body (c, w) = (Throw URIError, (c, w))
         /\ deleteSecret path (c, w) = (Throw URIError, (c, w))
     | Some p =>
         getSecret path (c, w)
         = request (vaultUrl c (lit "/secrets/" ++ p)) None (c, w)
         /\ putSecret path body (c, w)
            = request (vaultUrl c (lit "/secrets/" ++ p))
                (Some {| RequestInit.method := Some (lit "PUT");
                         RequestInit.headers := [];
                         RequestInit.body := Some (JSON_stringify body) |})
                (c, w)
         /\ fst (deleteSecret path (c, w))
            = match fst (request (vaultUrl c (lit "/secrets/" ++ p))
                           (Some {| RequestInit.method := Some (lit "DELETE");
                                    RequestInit.headers := [];
                                    RequestInit.body := None |})
                           (c, w)) with
              | Return _ => Return tt
              | Throw e => Throw e
              end
     end.
Proof.
  split; [ reflexivity | ].
  unfold getSecret, putSecret, deleteSecret, secret_url.
  unfold bind at 1 2 3 5 6, get_this. cbn [fst].
  destruct (encodePath path) as [ p | ]; [ | repeat split ].
  split; [ reflexivity | ]. split; [ reflexivity | ].
  unfold ret at 1. unfold bind at 1.
  destruct (request _ _ (c, w)) as [ [ v | e ] s' ]; reflexivity.
Qed.

(** A 402 is the billing message through every endpoint method. *)
Lemma quota_exhausted_on_endpoints c w hdrs c1 w1 dt r rest path p body :
  headers (c, w) = (Return hdrs, (c1, w1)) ->
  incoming w1 = (dt, Answer r) :: rest ->
  Response.status r = 402 ->
  encodePath path = Some p ->
  let quota := Throw (OneClawApiError
                        {| status := 402;
                           detail := VStr QUOTA_EXHAUSTED;
                           message := QUOTA_EXHAUSTED |}) in
  fst (listSecrets (c, w)) = quota
  /\ fst (getSecret path (c, w)) = quota
  /\ fst (putSecret path body (c, w)) = quota
  /\ fst (deleteSecret path (c, w)) = Throw (OneClawApiError
                        {| status := 402;
                           detail := VStr QUOTA_EXHAUSTED;
                           message := QUOTA_EXHAUSTED |}).
Proof.
  intros Hh Hin Hs Hp quota.
  destruct (endpoints_use_request c w path body) as [ El Ep ].
  rewrite Hp in Ep. destruct Ep as (Eg & Eput & Ed).
  rewrite El, Eg, Eput, Ed.
  rewrite !(@request_402 c w _ _ hdrs c1 w1 dt r rest Hh Hin Hs).
  repeat split.
Qed.

(** C3, as the code has it.  A 402 that answers the request itself,
    whatever the URL, the method, the body sent and the body received,
    becomes a [OneClawApiError] with status 402 whose detail is the fixed
    billing message.  A 402 that answers the token exchange is not
    rewritten: an error raised there never carries the billing message. *)
Theorem quota_exhausted_on_402 :
  (forall c w url init hdrs c1 w1 dt r rest,
     headers (c, w) = (Return hdrs, (c1, w1)) ->
     incoming w1 = (dt, Answer r) :: rest ->
     Response.status r = 402 ->
     fst (request url init (c, w))
     = Throw (OneClawApiError
                {| status := 402;
                   detail := VStr QUOTA_EXHAUSTED;
                   message := QUOTA_EXHAUSTED |}))
  /\
  (forall c cred w dt r rest e,
     agentCredentials c = Some cred ->
     ~ cache_fresh c w ->
     incoming w = (dt, Answer r) :: rest ->
     Response.status r = 402 ->
     fst (ensureToken (c, w)) = Throw (OneClawApiError e) ->
     status e = 402
     /\ detail e <> VStr QUOTA_EXHAUSTED
     /\ exists text, detail e = VStr (lit "Agent auth failed: " ++ text)).
Proof.
  split.
  - intros c w url init hdrs c1 w1 dt r rest Hh Hin Hs.
    now apply request_402 with hdrs c1 w1 dt r rest.
  - intros c cred w dt r rest e Hc Hf Hin Hs He.
    destruct (ensureToken_rejected Hc Hf Hin (not_ok_402 r Hs))
      as (ex & E & Hex & _).
    rewrite E in He. simpl in He. inversion He; subst ex.
    destruct Hex as [ Hex | (text & Hex) ]; [ discriminate | ].
    inversion Hex; subst e. simpl.
    split; [ exact Hs | ]. split; [ | now exists text ].
    intros H. apply (@agent_auth_failed_is_not_quota text). congruence.
Qed.

(** C4.  On a 403 whose envelope has [type] equal to
    ["resource_limit_exceeded"], the error has status 403 and a detail
    that contains the billing URL and, when the envelope has a [detail]
    string, that string.  On a 403 whose envelope says anything else,
    the error keeps the envelope's detail, or [HTTP 403] when there is
    none, as it is. *)
Theorem resource_limit_on_403 :
  forall c w url init hdrs c1 w1 dt r rest,
    headers (c, w) = (Return hdrs, (c1, w1)) ->
    incoming w1 = (dt, Answer r) :: rest ->
    Response.status r = 403 ->
    (resource_limit r ->
     forall text,
       ToString (envelope_detail r) = Some text ->
       fst (request url init (c, w))
       = Throw (OneClawApiError
                  {| status := 403;
                     detail := VStr (resource_limit_detail text);
                     message := resource_limit_detail text |})
       /\ is_infix BILLING_URL (resource_limit_detail text)
       /\ forall body d,
            Response.json r = Some body ->
            get_prop body (lit "detail") = Some (VStr d) ->
            is_infix d (resource_limit_detail text))
    /\
    (~ resource_limit r ->
     forall m,
       ToString (envelope_detail r) = Some m ->
       fst (request url init (c, w))
       = Throw (OneClawApiError
                  {| status := 403;
                     detail := envelope_detail r;
                     message := m |})).
Proof.
  intros c w url init hdrs c1 w1 dt r rest Hh Hin Hs.
  rewrite (@request_answered c w url init hdrs c1 w1 dt r rest Hh Hin).
  rewrite (not_ok_403 r Hs), new_OneClawApiError_envelope, Hs.
  cbn [fst Z.eqb Pos.eqb andb].
  split.
  - intros Hrl text Ht. apply read_envelope_type in Hrl. rewrite Hrl, Ht.
    split; [ reflexivity | ]. split; [ apply resource_limit_detail_infix | ].
    intros body d Hj Hd.
    destruct (envelope_detail_string r Hj Hd) as [ E | [ -> _ ] ].
    + rewrite E in Ht. inversion Ht. apply resource_limit_detail_infix.
    + apply is_infix_nil.
  - intros Hrl m Hm. rewrite <- read_envelope_type in Hrl.
    apply not_true_is_false in Hrl. now rewrite Hrl, Hm.
Qed.

Lemma request_unauthenticated c w url init ex s' :
  ensureToken (c, w) = (Throw ex, s') ->
  request url init (c, w) = (Throw ex, s').
Proof.
  intros H. unfold request, headers. unfold bind at 1 2. now rewrite H.
Qed.

(** C5.  A reply outside 2xx always makes [request] throw, and a
    [OneClawApiError] thrown for it carries the status of the reply as
    it came, rewritten detail or not; it is a [OneClawApiError] that is
    thrown whenever the envelope's detail converts to a string.  The
    same holds when the reply outside 2xx is the answer to the token
    exchange that [request] started. *)
Theorem api_error_keeps_status :
  (forall c w url init hdrs c1 w1 dt r rest,
     headers (c, w) = (Return hdrs, (c1, w1)) ->
     incoming w1 = (dt, Answer r) :: rest ->
     Response.ok r = false ->
     exists ex,
       fst (request url init (c, w)) = Throw ex
       /\ (forall e, ex = OneClawApiError e -> status e = Response.status r)
       /\ (detail_printable r -> exists e, ex = OneClawApiError e))
  /\
  (forall c cred w url init dt r rest,
     agentCredentials c = Some cred ->
     ~ cache_fresh c w ->
     incoming w = (dt, Answer r) :: rest ->
     Response.ok r = false ->
     exists ex,
       fst (request url init (c, w)) = Throw ex
       /\ (forall e, ex = OneClawApiError e -> status e = Response.status r)
       /\ (detail_printable r -> exists e, ex = OneClawApiError e)).
Proof.
  split.
  - intros c w url init hdrs c1 w1 dt r rest Hh Hin Hok.
    rewrite (@request_answered c w url init hdrs c1 w1 dt r rest Hh Hin).
    rewrite Hok, new_OneClawApiError_envelope. cbn [fst].
    eexists. split; [ reflexivity | ].
    destruct (Z.eqb_spec (Response.status r) 402) as [ E2 | _ ].
    { split; [ intros e He; inversion He; now subst | ].
      intros _. eexists. reflexivity. }
    destruct ((Response.status r =? 403) && strict_eq_string _ _) eqn:E3.
    + apply andb_true_iff in E3 as [ E3%Z.eqb_eq _ ].
      destruct (ToString (envelope_detail r)) as [ text | ] eqn:Ht.
      * split; [ intros e He; inversion He; now subst | ].
        intros _. eexists. reflexivity.
      * split; [ discriminate | ].
        intros Hp. exfalso. exact (envelope_detail_printable Hp Ht).
    + destruct (ToString (envelope_detail r)) as [ m | ] eqn:Hm.
      * split; [ intros e He; inversion He; now subst | ].
        intros _. eexists. reflexivity.
      * split; [ discriminate | ].
        intros Hp. exfalso. exact (envelope_detail_printable Hp Hm).
  - intros c cred w url init dt r rest Hc Hf Hin Hok.
    destruct (ensureToken_rejected Hc Hf Hin Hok) as (ex & E & Hex & Hnot & _).
    exists ex. rewrite (@request_unauthenticated c w url init ex _ E).
    split; [ reflexivity | ]. split.
    + intros e He. destruct Hex as [ Hex | (text & Hex) ]; [ congruence | ].
      rewrite Hex in He. inversion He. reflexivity.
    + intros Hp. destruct Hex as [ Hex | (text & Hex) ];
        [ exfalso; now apply Hnot | ].
      eexists. exact Hex.
Qed.

(** C7.  When the body of a reply outside 2xx is not JSON, or is JSON
    without a [detail], the error detail is [HTTP <status>], unless the
    status is 402 or the reply is a 403 with the resource-limit type. *)
Theorem fallback_detail_is_http_status :
  forall c w url init hdrs c1 w1 dt r rest,
    headers (c, w) = (Return hdrs, (c1, w1)) ->
    incoming w1 = (dt, Answer r) :: rest ->
    Response.ok r = false ->
    no_detail r ->
    Response.status r <> 402 ->
    ~ (Response.status r = 403 /\ resource_limit r) ->
    fst (request url init (c, w))
    = Throw (OneClawApiError
               {| status := Response.status r;
                  detail := VStr (lit "HTTP " ++ show_Z (Response.status r));
                  message := lit "HTTP " ++ show_Z (Response.status r) |}).
Proof.
  intros c w url init hdrs c1 w1 dt r rest Hh Hin Hok Hnd H402 Hrl.
  rewrite (@request_answered c w url init hdrs c1 w1 dt r rest Hh Hin). rewrite Hok. cbn [fst].
  rewrite (envelope_detail_absent r Hnd).
  destruct (Z.eqb_spec (Response.status r) 402) as [ E2 | _ ]; [ contradiction | ].
  destruct (Z.eqb_spec (Response.status r) 403) as [ E3 | _ ]; cbn [andb];
    [ | reflexivity ].
  destruct (strict_eq_string _ _) eqn:Ht; [ | reflexivity ].
  exfalso. apply Hrl. split; [ exact E3 | ]. now apply read_envelope_type.
Qed.

(** C8.  On a 204 [request] returns [undefined] and the body is never
    read: the world is the one the reply left.  On any other 2xx it
    reads the body and returns what it parses to; a body that is not
    JSON makes the call throw [SyntaxError]. *)
Theorem success_body_handling :
  forall c w url init hdrs c1 w1 dt r rest,
    headers (c, w) = (Return hdrs, (c1, w1)) ->
    incoming w1 = (dt, Answer r) :: rest ->
    let w2 := answered (fetch_args url init hdrs) dt rest w1 in
    (Response.status r = 204 ->
     request url init (c, w) = (Return VUndefined, (c1, w2))
     /\ trace w2 = trace w1 ++ [Fetch (fetch_args url init hdrs)])
    /\
    (Response.ok r = true -> Response.status r <> 204 ->
     (forall v, Response.json r = Some v ->
        request url init (c, w) = (Return v, (c1, log ReadBody w2)))
     /\ (Response.json r = None ->
        request url init (c, w) = (Throw SyntaxError, (c1, log ReadBody w2)))).
Proof.
  intros c w url init hdrs c1 w1 dt r rest Hh Hin w2.
  rewrite (@request_answered c w url init hdrs c1 w1 dt r rest Hh Hin). fold w2. split.
  - intros Hs. rewrite (ok_204 r Hs), Hs. split; reflexivity.
  - intros Hok Hs. rewrite Hok.
    destruct (Z.eqb_spec (Response.status r) 204) as [ E | _ ]; [ contradiction | ].
    split; [ intros v Hv | intros Hv ]; now rewrite Hv.
Qed.

(* ================================================================== *)
(** * The session router *)
(* ================================================================== *)

Lemma nth_error_fresh (h : Heap) (c : OneClawClient) :
  nth_error h (List.length h) = None
  /\ nth_error (h ++ [c]) (List.length h) = Some c
  /\ forall r c', nth_error h r = Some c' -> nth_error (h ++ [c]) r = Some c'.
Proof.
  split; [ apply nth_error_None; lia | ].
  split.
  - rewrite nth_error_app2 by lia. now rewrite Nat.sub_diag.
  - intros r c' H. rewrite nth_error_app1; [ exact H | ].
    apply nth_error_Some. congruence.
Qed.

(** C9.  A tool call that comes with a session runs on a client made
    for the call from the session's token and vault: a new object, which
    no earlier reference names and which leaves the other clients as
    they are.  Without a session the call runs on the shared client when
    one was set at startup.  With neither, the call throws [UserError]
    before the tool runs, which is not a [OneClawApiError]. *)
Theorem resolveClient_routing :
  forall (tool : Ref -> M (Heap * World) jsstring) (h : Heap) (w : World),
    (forall s,
       resolveClient (Some s) h
       = (Return (List.length h), h ++ [session_client s])
       /\ nth_error h (List.length h) = None
       /\ nth_error (h ++ [session_client s]) (List.length h)
          = Some (session_client s)
       /\ (forall r c, nth_error h r = Some c ->
                       nth_error (h ++ [session_client s]) r = Some c)
       /\ token (session_client s) = VStr (SessionAuth.token s)
       /\ execute tool (Some s) (h, w)
          = tool (List.length h) (h ++ [session_client s], w))
    /\
    (forall shared,
       sharedClient = Some shared ->
       resolveClient None h = (Return shared, h)
       /\ execute tool None (h, w) = tool shared (h, w))
    /\
    (sharedClient = None ->
     resolveClient None h = (Throw (UserError NOT_AUTHENTICATED), h)
     /\ execute tool None (h, w) = (Throw (UserError NOT_AUTHENTICATED), (h, w))
     /\ forall e, UserError NOT_AUTHENTICATED <> OneClawApiError e).
Proof.
  intros tool h w. split; [ | split ].
  - intros s. destruct (nth_error_fresh h (session_client s)) as (H1 & H2 & H3).
    repeat split; auto.
  - intros shared Hs. unfold execute, resolveClient, bind, on_heap.
    rewrite Hs. split; reflexivity.
  - intros Hs. unfold execute, resolveClient, bind, on_heap.
    rewrite Hs. repeat split. discriminate.
Qed.


(* ================================================================== *)
(** * The client beyond token resolution and error mapping *)
(* ================================================================== *)

Lemma strip_trailing_slash_app s : strip_trailing_slash (s ++ [slash]) = s.
Proof.
  induction s as [ | c s IH ]; [ reflexivity | ].
  change ((c :: s) ++ [slash]) with (c :: (s ++ [slash])).
  destruct (s ++ [slash]) as [ | d t ] eqn:E.
  - destruct s; discriminate E.
  - change (strip_trailing_slash (c :: d :: t))
      with (c :: strip_trailing_slash (d :: t)).
    now rewrite IH.
Qed.

Lemma strip_trailing_slash_other s :
  (forall s', s <> s' ++ [slash]) -> strip_trailing_slash s = s.
Proof.
  induction s as [ | c s IH ]; intros H; [ reflexivity | ].
  destruct s as [ | d t ].
  - simpl. destruct (N.eqb_spec c slash) as [ -> | _ ]; [ | reflexivity ].
    exfalso. exact (H [] eq_refl).
  - change (strip_trailing_slash (c :: d :: t))
      with (c :: strip_trailing_slash (d :: t)).
    rewrite IH; [ reflexivity | ].
    intros s' E. apply (H (c :: s')). now rewrite E.
Qed.

(** X1.  The constructor drops exactly one final slash of the base URL
    and nothing else: a base URL written with or without the final
    slash gives the same client, for both kinds of configuration. *)
Theorem constructor_drops_one_trailing_slash :
  forall (b tok v id key : jsstring),
    baseUrl (new_OneClawClient
               (Static {| ClientConfig.baseUrl := b ++ [slash];
                          ClientConfig.token := tok;
                          ClientConfig.vaultId := v |})) = b
    /\ baseUrl (new_OneClawClient
                  (Agent {| AgentCredentials.baseUrl := b ++ [slash];
                            AgentCredentials.agentId := id;
                            AgentCredentials.apiKey := key;
                            AgentCredentials.vaultId := v |})) = b
    /\ ((forall b', b <> b' ++ [slash]) ->
        new_OneClawClient
          (Static {| ClientConfig.baseUrl := b ++ [slash];
                     ClientConfig.token := tok;
                     ClientConfig.vaultId := v |})
        = new_OneClawClient
            (Static {| ClientConfig.baseUrl := b;
                       ClientConfig.token := tok;
                       ClientConfig.vaultId := v |})
        /\ new_OneClawClient
             (Agent {| AgentCredentials.baseUrl := b ++ [slash];
                       AgentCredentials.agentId := id;
                       AgentCredentials.apiKey := key;
                       AgentCredentials.vaultId := v |})
           = new_OneClawClient
               (Agent {| AgentCredentials.baseUrl := b;
                         AgentCredentials.agentId := id;
                         AgentCredentials.apiKey := key;
                         AgentCredentials.vaultId := v |})).
Proof.
  intros b tok v id key. unfold new_OneClawClient. cbn.
  rewrite strip_trailing_slash_app. split; [ reflexivity | ].
  split; [ reflexivity | ].
  intros H. rewrite (@strip_trailing_slash_other b H). split; reflexivity.
Qed.

Lemma same_config_refl c : same_config c c.
Proof. repeat split. Qed.

Lemma ensureToken_keeps_config c w :
  same_config c (fst (snd (ensureToken (c, w)))).
Proof.
  destruct (agentCredentials c) as [ cred | ] eqn:Hc.
  2:{ rewrite (ensureToken_static c w Hc). apply same_config_refl. }
  enter_ensureToken Hc. destruct (cache_freshb c w); [ apply same_config_refl | ].
  exec.
  destruct (incoming w) as [ | [ dt [ | r ] ] rest ]; simpl;
    try apply same_config_refl.
  destruct (Response.ok r); simpl.
  - destruct (Response.json r) as [ data | ]; simpl;
      [ | apply same_config_refl ].
    destruct (get_prop data (lit "access_token")); simpl;
      [ | apply same_config_refl ].
    destruct (get_prop data (lit "expires_in")) as [ e | ]; simpl;
      [ | repeat split ].
    destruct (ToNumber e); simpl; repeat split.
  - destruct (Response.json r) as [ body | ]; simpl;
      [ | apply same_config_refl ].
    destruct (get_prop body (lit "detail")) as [ d | ]; simpl;
      [ | apply same_config_refl ].
    destruct (truthy d); simpl; [ | apply same_config_refl ].
    destruct (ToString d); simpl; apply same_config_refl.
Qed.

Lemma headers_client c w :
  fst (snd (headers (c, w))) = fst (snd (ensureToken (c, w))).
Proof.
  unfold headers. unfold bind at 1.
  destruct (ensureToken (c, w)) as [ [ [] | e ] [ c1 w1 ] ]; [ | reflexivity ].
  unfold bind, get_this, or_TypeError, ret, throw. cbn [fst].
  destruct (ToString (token c1)); reflexivity.
Qed.

Lemma request_unanswered c w url init hdrs c1 w1 :
  headers (c, w) = (Return hdrs, (c1, w1)) ->
  match incoming w1 with
  | [] =>
      request url init (c, w)
      = (Throw FetchFailed, (c1, log (Fetch (fetch_args url init hdrs)) w1))
  | (dt, NetworkError) :: rest =>
      request url init (c, w)
      = (Throw FetchFailed,
         (c1, answered (fetch_args url init hdrs) dt rest w1))
  | (_, Answer _) :: _ => True
  end.
Proof.
  intros Hh.
  destruct (incoming w1) as [ | [ dt [ | r ] ] rest ] eqn:Hin; [ | | exact I ];
    unfold request; unfold bind at 1; rewrite Hh;
    unfold bind at 1, fetch at 1; now rewrite Hin.
Qed.

(** [request] sends its own request once, whatever comes back, and
    leaves the client as [headers] left it. *)
Lemma request_after_headers c w url init hdrs c1 w1 :
  headers (c, w) = (Return hdrs, (c1, w1)) ->
  fetches (trace (snd (snd (request url init (c, w)))))
  = fetches (trace w1) ++ [fetch_args url init hdrs]
  /\ fst (snd (request url init (c, w))) = c1.
Proof.
  intros Hh. pose proof (@request_unanswered c w url init hdrs c1 w1 Hh) as Hu.
  destruct (incoming w1) as [ | [ dt [ | r ] ] rest ] eqn:Hin.
  - rewrite Hu. split; [ apply fetches_Fetch | reflexivity ].
  - rewrite Hu. split; [ apply fetches_Fetch | reflexivity ].
  - rewrite (@request_answered c w url init hdrs c1 w1 dt r rest Hh Hin).
    destruct (Response.ok r).
    + destruct (Response.status r =? 204);
        [ split; [ apply fetches_Fetch | reflexivity ] | ].
      cbn [snd fst]. unfold log at 1. cbn [trace].
      rewrite fetches_ReadBody. split; [ apply fetches_Fetch | reflexivity ].
    + cbn [snd fst]. unfold log at 1. cbn [trace].
      rewrite fetches_ReadBody. split; [ apply fetches_Fetch | reflexivity ].
Qed.

Lemma request_client c w url init :
  fst (snd (request url init (c, w))) = fst (snd (headers (c, w))).
Proof.
  destruct (headers (c, w)) as [ [ hdrs | e ] [ c1 w1 ] ] eqn:Hh.
  - exact (proj2 (@request_after_headers c w url init hdrs c1 w1 Hh)).
  - unfold request. unfold bind at 1. now rewrite Hh.
Qed.

(** X2.  No call changes what the client was configured with: after
    [ensureToken], [headers] or [request], whatever the network did, the
    base URL, the vault id and the agent credentials are the ones the
    client had, and so is what the [agentId] accessor returns.  Only the
    token and its expiry can change, and on a static-token client they
    do not either. *)
Theorem calls_keep_config :
  forall c w url init,
    same_config c (fst (snd (ensureToken (c, w))))
    /\ same_config c (fst (snd (headers (c, w))))
    /\ same_config c (fst (snd (request url init (c, w))))
    /\ agentId (fst (snd (request url init (c, w)))) = agentId c
    /\ (agentCredentials c = None ->
        fst (snd (request url init (c, w))) = c).
Proof.
  intros c w url init.
  pose proof (ensureToken_keeps_config c w) as He.
  rewrite request_client, headers_client.
  repeat split; try apply He.
  - unfold agentId. destruct He as (_ & _ & ->). reflexivity.
  - intros Hc. now rewrite (ensureToken_static c w Hc).
Qed.

(** X3.  [request] never sends its request without a token: when the
    exchange that [request] starts fails in any way (network down, a
    status outside 2xx, a body that is not JSON), [request] throws what
    the exchange threw, and the only thing fetched is the exchange, the
    [POST] to [/v1/auth/agent-token]. *)
Theorem no_request_without_token :
  forall c cred w url init e,
    agentCredentials c = Some cred ->
    ~ cache_fresh c w ->
    fst (ensureToken (c, w)) = Throw e ->
    request url init (c, w) = (Throw e, snd (ensureToken (c, w)))
    /\ exists rq,
         fetches (trace (snd (snd (request url init (c, w)))))
         = fetches (trace w) ++ [rq]
         /\ Request.method rq = Some (lit "POST")
         /\ Request.url rq = baseUrl c ++ lit "/v1/auth/agent-token".
Proof.
  intros c cred w url init e Hc Hf He.
  pose proof (@ensureToken_stale_fetches c cred w Hc Hf) as Hfetch.
  destruct (ensureToken (c, w)) as [ res s' ] eqn:E. simpl in He. subst res.
  rewrite (@request_unauthenticated c w url init e s' E).
  split; [ reflexivity | ].
  exists (exchange_request c cred). split; [ exact Hfetch | split; reflexivity ].
Qed.

(** X4.  A request made when the cached token is stale goes out with
    the token that the exchange has just granted: exactly two fetches
    are made, the exchange ([POST] to [/v1/auth/agent-token]) and then
    the request, whose [Authorization]
    header is [Bearer] followed by the new [access_token]. *)
Theorem request_uses_refreshed_token :
  forall c cred w url init dt g rest tok secs,
    agentCredentials c = Some cred ->
    ~ cache_fresh c w ->
    incoming w = (dt, Answer g) :: rest ->
    Response.ok g = true ->
    (exists data,
       Response.json g = Some data
       /\ get_prop data (lit "access_token") = Some (VStr tok)
       /\ get_prop data (lit "expires_in") = Some (VNum (Fin secs))) ->
    (exists rq,
       fetches (trace (snd (snd (request url init (c, w)))))
       = fetches (trace w)
         ++ [rq;
             fetch_args url init
               [(lit "Authorization", lit "Bearer " ++ tok);
                (lit "Content-Type", lit "application/json")]]
       /\ Request.method rq = Some (lit "POST")
       /\ Request.url rq = baseUrl c ++ lit "/v1/auth/agent-token")
    /\ fst (snd (request url init (c, w)))
       = with_token c (VStr tok) (Fin (clock w + dt + secs * 1000)).
Proof.
  intros c cred w url init dt g rest tok secs Hc Hf Hin Hok
    (data & Hj & Htok & Hexp).
  pose proof (ensureToken_granted Hc Hf Hin Hok Hj Htok Hexp) as He.
  assert (Hh : headers (c, w)
               = (Return [(lit "Authorization", lit "Bearer " ++ tok);
                          (lit "Content-Type", lit "application/json")],
                  (with_token c (VStr tok) (Fin (clock w + dt + secs * 1000)),
                   log ReadBody (answered (exchange_request c cred) dt rest w)))).
  { unfold headers. unfold bind at 1. rewrite He. reflexivity. }
  destruct (@request_after_headers c w url init _ _ _ Hh) as [ Hfetch Hclient ].
  rewrite Hfetch, Hclient. split; [ | reflexivity ].
  exists (exchange_request c cred). split; [ | split; reflexivity ].
  unfold log. cbn [trace]. rewrite fetches_ReadBody.
  unfold answered. cbn [trace]. rewrite fetches_Fetch.
  now rewrite <- app_assoc.
Qed.

(** X8.  [request] never retries: once the headers are there it takes
    exactly one reply from the network (none when the network is down)
    and fetches exactly once, whether the reply is a success, an error
    status or a network failure. *)
Theorem request_never_retries :
  forall c w url init hdrs c1 w1,
    headers (c, w) = (Return hdrs, (c1, w1)) ->
    fetches (trace (snd (snd (request url init (c, w)))))
    = fetches (trace w1) ++ [fetch_args url init hdrs]
    /\ incoming (snd (snd (request url init (c, w)))) = tl (incoming w1).
Proof.
  intros c w url init hdrs c1 w1 Hh.
  split; [ exact (proj1 (@request_after_headers c w url init hdrs c1 w1 Hh)) | ].
  pose proof (@request_unanswered c w url init hdrs c1 w1 Hh) as Hu.
  destruct (incoming w1) as [ | [ dt [ | r ] ] rest ] eqn:Hin.
  - rewrite Hu. cbn [snd]. unfold log. cbn [incoming]. exact Hin.
  - rewrite Hu. reflexivity.
  - rewrite (@request_answered c w url init hdrs c1 w1 dt r rest Hh Hin).
    destruct (Response.ok r); [ destruct (Response.status r =? 204) | ];
      reflexivity.
Qed.

Lemma NaN_never_fresh c w : tokenExpiresAt c = NaN -> ~ cache_fresh c w.
Proof. intros H (_ & e & He & _). congruence. Qed.

Lemma exchange_request_with_token c tok expiry cred :
  exchange_request (with_token c tok expiry) cred = exchange_request c cred.
Proof. reflexivity. Qed.

(** X5.  A grant that carries no [expires_in] is stored with an expiry
    that is not a number, and is therefore never reused: the token is
    kept, but every later resolution sends the exchange again (the
    [POST] to [/v1/auth/agent-token]), whatever the clock says. *)
Theorem grant_without_expires_in :
  forall c cred w dt g rest data tok,
    agentCredentials c = Some cred ->
    ~ cache_fresh c w ->
    incoming w = (dt, Answer g) :: rest ->
    Response.ok g = true ->
    Response.json g = Some data ->
    get_prop data (lit "access_token") = Some tok ->
    get_prop data (lit "expires_in") = Some VUndefined ->
    ensureToken (c, w)
    = (Return tt,
       (with_token c tok NaN,
        log ReadBody (answered (exchange_request c cred) dt rest w)))
    /\ forall w',
         exists rq,
           fetches (trace (snd (snd (ensureToken (with_token c tok NaN, w')))))
           = fetches (trace w') ++ [rq]
           /\ Request.method rq = Some (lit "POST")
           /\ Request.url rq = baseUrl c ++ lit "/v1/auth/agent-token".
Proof.
  intros c cred w dt g rest data tok Hc Hf Hin Hok Hj Htok Hexp. split.
  - rewrite <- cache_freshb_spec in Hf. apply not_true_is_false in Hf.
    enter_ensureToken Hc. rewrite Hf. exec.
    rewrite Hin. simpl. rewrite Hok. simpl. rewrite Hj. simpl.
    rewrite Htok. simpl. rewrite Hexp. reflexivity.
  - intros w'. exists (exchange_request c cred).
    split; [ | split; reflexivity ].
    rewrite <- (exchange_request_with_token c tok NaN cred).
    apply ensureToken_stale_fetches; [ exact Hc | ].
    now apply NaN_never_fresh.
Qed.

(** X6.  A grant is not reused either when its [access_token] is the
    empty string or when it lives no longer than the refresh buffer:
    as long as the clock does not go back, the next resolution sends
    the exchange again (the [POST] to [/v1/auth/agent-token]). *)
Theorem short_grant_is_not_reused :
  forall c cred w dt g rest data tok secs w',
    agentCredentials c = Some cred ->
    ~ cache_fresh c w ->
    incoming w = (dt, Answer g) :: rest ->
    Response.ok g = true ->
    Response.json g = Some data ->
    get_prop data (lit "access_token") = Some (VStr tok) ->
    get_prop data (lit "expires_in") = Some (VNum (Fin secs)) ->
    tok = [] \/ secs * 1000 <= REFRESH_BUFFER_MS ->
    clock w + dt <= clock w' ->
    let c' := fst (snd (ensureToken (c, w))) in
    c' = with_token c (VStr tok) (Fin (clock w + dt + secs * 1000))
    /\ exists rq,
         fetches (trace (snd (snd (ensureToken (c', w')))))
         = fetches (trace w') ++ [rq]
         /\ Request.method rq = Some (lit "POST")
         /\ Request.url rq = baseUrl c ++ lit "/v1/auth/agent-token".
Proof.
  intros c cred w dt g rest data tok secs w' Hc Hf Hin Hok Hj Htok Hexp
    Hshort Hclock c'.
  unfold c'. rewrite (ensureToken_granted Hc Hf Hin Hok Hj Htok Hexp).
  cbn [fst snd]. split; [ reflexivity | ].
  exists (exchange_request c cred). split; [ | split; reflexivity ].
  rewrite <- (exchange_request_with_token c (VStr tok)
                (Fin (clock w + dt + secs * 1000)) cred).
  apply ensureToken_stale_fetches; [ exact Hc | ].
  intros (Ht & e & He & Hlt). cbn in Ht, He.
  destruct Hshort as [ -> | Hs ]; [ discriminate Ht | ].
  inversion He; subst e. lia.
Qed.

Lemma jsstring_eqb_eq a b : jsstring_eqb a b = true <-> a = b.
Proof.
  unfold jsstring_eqb. destruct (list_eq_dec N.eq_dec a b); split;
    congruence.
Qed.

Lemma jsstring_eqb_refl a : jsstring_eqb a a = true.
Proof. now apply jsstring_eqb_eq. Qed.

Lemma jsstring_eqb_neq a b : a <> b -> jsstring_eqb a b = false.
Proof.
  intros H. destruct (jsstring_eqb a b) eqn:E; [ | reflexivity ].
  apply jsstring_eqb_eq in E. contradiction.
Qed.

Lemma header_assign k k' v o :
  header k (assign k' v o)
  = if jsstring_eqb k k' then Some v else header k o.
Proof.
  induction o as [ | [ k0 v0 ] o IH ]; simpl.
  - destruct (jsstring_eqb k k'); reflexivity.
  - destruct (jsstring_eqb k' k0) eqn:E0; simpl.
    + apply jsstring_eqb_eq in E0. subst k0.
      destruct (jsstring_eqb k k'); reflexivity.
    + destruct (jsstring_eqb k k0) eqn:E1.
      * apply jsstring_eqb_eq in E1. subst k0.
        destruct (jsstring_eqb k k') eqn:E2; [ | reflexivity ].
        apply jsstring_eqb_eq in E2. subst k'.
        rewrite jsstring_eqb_refl in E0. discriminate E0.
      * exact IH.
Qed.

Lemma header_app k a b :
  header k (a ++ b)
  = match header k a with Some v => Some v | None => header k b end.
Proof.
  induction a as [ | [ k0 v0 ] a IH ]; simpl; [ reflexivity | ].
  destruct (jsstring_eqb k k0); [ reflexivity | exact IH ].
Qed.

Lemma header_spread k a b :
  header k (spread a b)
  = match header k (rev b) with Some v => Some v | None => header k a end.
Proof.
  unfold spread. revert a.
  induction b as [ | [ k0 v0 ] b IH ]; intros a; [ reflexivity | ].
  simpl fold_left. rewrite IH. simpl rev. rewrite header_app.
  destruct (header k (rev b)); [ reflexivity | ].
  simpl. rewrite header_assign. destruct (jsstring_eqb k k0); reflexivity.
Qed.

(** X7.  In the request that [request] hands to [fetch], a header given
    by the caller replaces the computed one of the same name (the last
    one given, when the name is given twice), and every other computed
    header is kept; with no headers from the caller the computed ones
    go out as they are. *)
Theorem init_headers_win :
  forall url init hdrs k,
    header k (Request.headers (fetch_args url init hdrs))
    = match init with
      | None => header k hdrs
      | Some i =>
          match header k (rev (RequestInit.headers i)) with
          | Some v => Some v
          | None => header k hdrs
          end
      end.
Proof.
  intros url init hdrs k. unfold fetch_args. cbn [Request.headers].
  rewrite header_spread. destruct init; reflexivity.
Qed.




(* ================================================================== *)
(** * The tools that call the client *)
(* ================================================================== *)

Arguments NO_SECRET : simpl never.
Arguments SECRET_GONE : simpl never.

Lemma getSecretTool_throws path c w lines e s' :
  getSecret path (c, w) = (Throw e, s') ->
  getSecretTool path ((c, w), lines) = (Throw (remap_get path e), (s', lines)).
Proof.
  intros H. unfold getSecretTool, try_catch. unfold bind at 1, on_client.
  rewrite H. destruct e as [ a | | | | | ]; try reflexivity.
  unfold remap_get. destruct (status a =? 410); [ reflexivity | ].
  destruct (status a =? 404); reflexivity.
Qed.

Lemma deleteSecret_result path p c w :
  encodePath path = Some p ->
  deleteSecret path (c, w)
  = let '(r, s') :=
      request (vaultUrl c (lit "/secrets/" ++ p))
        (Some {| RequestInit.method := Some (lit "DELETE");
                 RequestInit.headers := [];
                 RequestInit.body := None |}) (c, w) in
    (match r with Return _ => Return tt | Throw e => Throw e end, s').
Proof.
  intros Hp. unfold deleteSecret, secret_url.
  unfold bind at 1 2, get_this. cbn [fst]. rewrite Hp.
  unfold ret at 1. unfold bind at 1.
  destruct (request _ _ (c, w)) as [ [ v | e ] s' ]; reflexivity.
Qed.

Lemma deleteSecretTool_throws path c w lines e s' :
  deleteSecret path (c, w) = (Throw e, s') ->
  deleteSecretTool path ((c, w), lines)
  = (Throw (remap_delete path e), (s', lines)).
Proof.
  intros H. unfold deleteSecretTool, try_catch. unfold bind at 1, on_client.
  rewrite H. destruct e as [ a | | | | | ]; try reflexivity.
  unfold remap_delete. destruct (status a =? 404); reflexivity.
Qed.

Lemma deleteSecretTool_returns path c w lines s' :
  deleteSecret path (c, w) = (Return tt, s') ->
  deleteSecretTool path ((c, w), lines)
  = (Return (Text (lit "Secret at '" ++ path ++ lit "' has been soft-deleted.")),
     (s', lines ++ [lit "secret deleted: " ++ path])).
Proof.
  intros H. unfold deleteSecretTool, try_catch. unfold bind at 1, on_client.
  rewrite H. reflexivity.
Qed.

(** A reply outside 2xx whose detail converts to a string makes
    [request] throw a [OneClawApiError] with the status of the reply. *)
Lemma request_throws_api_error c w url init hdrs c1 w1 dt r rest :
  headers (c, w) = (Return hdrs, (c1, w1)) ->
  incoming w1 = (dt, Answer r) :: rest ->
  Response.ok r = false ->
  detail_printable r ->
  exists e,
    request url init (c, w)
    = (Throw (OneClawApiError e),
       (c1, log ReadBody (answered (fetch_args url init hdrs) dt rest w1)))
    /\ status e = Response.status r.
Proof.
  intros Hh Hin Hok Hp.
  rewrite (@request_answered c w url init hdrs c1 w1 dt r rest Hh Hin).
  rewrite Hok, new_OneClawApiError_envelope.
  destruct (ToString (envelope_detail r)) as [ text | ] eqn:Ht;
    [ | exfalso; exact (envelope_detail_printable Hp Ht) ].
  destruct (Z.eqb_spec (Response.status r) 402) as [ E2 | _ ].
  { eexists. split; [ reflexivity | ]. now rewrite E2. }
  destruct ((Response.status r =? 403) && strict_eq_string _ _) eqn:E3.
  - apply andb_true_iff in E3 as [ E3%Z.eqb_eq _ ].
    eexists. split; [ reflexivity | ]. now rewrite E3.
  - eexists. split; [ reflexivity | ]. reflexivity.
Qed.

(** X10.  The [get_secret] tool turns a 404 from the vault into the
    user error "No secret found at path ..." and a 410 into the
    "expired or has exceeded its maximum access count" one, both naming
    the path asked for; an error with any other status reaches the
    caller as [request] threw it, with its status.  Nothing is given to
    the log when the call fails. *)
Theorem getSecretTool_error_mapping :
  forall c w lines path p hdrs c1 w1 dt r rest,
    encodePath path = Some p ->
    headers (c, w) = (Return hdrs, (c1, w1)) ->
    incoming w1 = (dt, Answer r) :: rest ->
    Response.ok r = false ->
    detail_printable r ->
    snd (snd (getSecretTool path ((c, w), lines))) = lines
    /\ (Response.status r = 404 ->
        fst (getSecretTool path ((c, w), lines))
        = Throw (UserError (NO_SECRET path)))
    /\ (Response.status r = 410 ->
        fst (getSecretTool path ((c, w), lines))
        = Throw (UserError (SECRET_GONE path)))
    /\ (Response.status r <> 404 -> Response.status r <> 410 ->
        exists e,
          fst (getSecretTool path ((c, w), lines)) = Throw (OneClawApiError e)
          /\ fst (getSecret path (c, w)) = Throw (OneClawApiError e)
          /\ status e = Response.status r).
Proof.
  intros c w lines path p hdrs c1 w1 dt r rest Hp Hh Hin Hok Hpr.
  pose proof (endpoints_use_request c w path VUndefined) as [ _ He ].
  rewrite Hp in He. destruct He as (Eg & _).
  destruct (@request_throws_api_error c w (vaultUrl c (lit "/secrets/" ++ p))
              None hdrs c1 w1 dt r rest Hh Hin Hok Hpr) as (e & Er & Es).
  rewrite <- Eg in Er.
  rewrite (@getSecretTool_throws path c w lines _ _ Er), Er.
  cbn [fst snd]. unfold remap_get. rewrite Es.
  split; [ reflexivity | ]. split; [ | split ].
  - intros ->. reflexivity.
  - intros ->. reflexivity.
  - intros H404 H410.
    destruct (Z.eqb_spec (Response.status r) 410) as [ E | _ ]; [ contradiction | ].
    destruct (Z.eqb_spec (Response.status r) 404) as [ E | _ ]; [ contradiction | ].
    exists e. auto.
Qed.

(** X11.  The [delete_secret] tool answers a 204 with "Secret at
    '<path>' has been soft-deleted." and one log line naming the path;
    it turns a 404 into the user error "No secret found at path ...";
    an error with any other status, 410 included, reaches the caller as
    it was thrown, and nothing is logged when the call fails. *)
Theorem deleteSecretTool_outcomes :
  forall c w lines path p hdrs c1 w1 dt r rest,
    encodePath path = Some p ->
    headers (c, w) = (Return hdrs, (c1, w1)) ->
    incoming w1 = (dt, Answer r) :: rest ->
    (Response.status r = 204 ->
     fst (deleteSecretTool path ((c, w), lines))
     = Return (Text (lit "Secret at '" ++ path ++ lit "' has been soft-deleted."))
     /\ snd (snd (deleteSecretTool path ((c, w), lines)))
        = lines ++ [lit "secret deleted: " ++ path])
    /\
    (Response.ok r = false -> detail_printable r ->
     snd (snd (deleteSecretTool path ((c, w), lines))) = lines
     /\ (Response.status r = 404 ->
         fst (deleteSecretTool path ((c, w), lines))
         = Throw (UserError (NO_SECRET path)))
     /\ (Response.status r <> 404 ->
         exists e,
           fst (deleteSecretTool path ((c, w), lines))
           = Throw (OneClawApiError e)
           /\ status e = Response.status r)).
Proof.
  intros c w lines path p hdrs c1 w1 dt r rest Hp Hh Hin.
  pose proof (@deleteSecret_result path p c w Hp) as Ed.
  set (init := Some {| RequestInit.method := Some (lit "DELETE");
                       RequestInit.headers := [];
                       RequestInit.body := None |}) in *.
  set (url := vaultUrl c (lit "/secrets/" ++ p)) in *.
  split.
  - intros Hs.
    rewrite (@request_answered c w url init hdrs c1 w1 dt r rest Hh Hin) in Ed.
    rewrite (ok_204 r Hs), Hs in Ed. cbn in Ed.
    rewrite (@deleteSecretTool_returns path c w lines _ Ed).
    split; reflexivity.
  - intros Hok Hpr.
    destruct (@request_throws_api_error c w url init hdrs c1 w1 dt r rest
                Hh Hin Hok Hpr) as (e & Er & Es).
    rewrite Er in Ed.
    rewrite (@deleteSecretTool_throws path c w lines _ _ Ed).
    cbn [fst snd]. unfold remap_delete. rewrite Es.
    split; [ reflexivity | ]. split.
    + intros ->. reflexivity.
    + intros H404.
      destruct (Z.eqb_spec (Response.status r) 404) as [ E | _ ]; [ contradiction | ].
      exists e. auto.
Qed.

(* ================================================================== *)
(** * index.ts: startup and sessions *)
(* ================================================================== *)

Lemma missing_false s : missing s = false -> exists t, s = Some t /\ t <> [].
Proof.
  destruct s as [ [ | c t ] | ]; try discriminate.
  intros _. exists (c :: t). split; [ reflexivity | discriminate ].
Qed.

(** X12.  In stdio mode (also when [MCP_TRANSPORT] is not set) the
    module exits with code 1 unless both the token and the vault id are
    set and not empty; when they are, the shared client is a
    static-token client made from them and a call without a session is
    routed to it.  With any other transport no shared client is made,
    and every call without a session is refused. *)
Theorem startup_decides_the_shared_client :
  forall tr tok v,
    let stdio := match tr with None => True | Some t => t = lit "stdio" end in
    (stdio -> missing tok = true \/ missing v = true ->
     exists msg, startup tr tok v = Exit 1 msg)
    /\
    (stdio -> forall t vid,
       tok = Some t -> v = Some vid -> t <> [] -> vid <> [] ->
       let shared :=
         session_client {| SessionAuth.token := t; SessionAuth.vaultId := vid |} in
       startup tr tok v = Running [shared] (Some O)
       /\ token shared = VStr t
       /\ (sharedClient = Some O ->
           resolveClient None [shared] = (Return O, [shared])))
    /\
    (~ stdio ->
     startup tr tok v = Running [] None
     /\ (sharedClient = None ->
         forall h, resolveClient None h
                   = (Throw (UserError NOT_AUTHENTICATED), h))).
Proof.
  intros tr tok v stdio.
  assert (Hs : stdio ->
               jsstring_eqb match tr with Some t => t | None => lit "stdio" end
                 (lit "stdio") = true).
  { unfold stdio. destruct tr as [ t | ]; [ intros -> | intros _ ];
      apply jsstring_eqb_refl. }
  split; [ | split ].
  - intros H Hm. unfold startup. rewrite (Hs H).
    destruct (missing tok); [ eexists; reflexivity | ].
    destruct Hm as [ Hm | Hm ]; [ discriminate Hm | ].
    rewrite Hm. eexists; reflexivity.
  - intros H t vid -> -> Ht Hv shared. unfold startup. rewrite (Hs H).
    destruct t as [ | a t ]; [ contradiction | ].
    destruct vid as [ | b vid ]; [ contradiction | ].
    split; [ reflexivity | ]. split; [ reflexivity | ].
    intros Hsh. unfold resolveClient. now rewrite Hsh.
  - intros H. unfold startup.
    destruct tr as [ t | ]; [ | exfalso; apply H; exact I ].
    rewrite (jsstring_eqb_neq H). split; [ reflexivity | ].
    intros Hsh h. unfold resolveClient. now rewrite Hsh.
Qed.

(** ** Trimming *)

Lemma trimStart_head s :
  match trimStart s with
  | [] => True
  | c :: _ => is_whitespace c = false
  end.
Proof.
  induction s as [ | c s IH ]; [ exact I | ].
  simpl. destruct (is_whitespace c) eqn:E; [ exact IH | exact E ].
Qed.

Lemma trimStart_fixed s :
  match s with [] => True | c :: _ => is_whitespace c = false end ->
  trimStart s = s.
Proof. destruct s as [ | c s ]; [ reflexivity | ]. simpl. now intros ->. Qed.

Lemma trimStart_idem s : trimStart (trimStart s) = trimStart s.
Proof. apply trimStart_fixed, trimStart_head. Qed.

Lemma trimStart_spaces ws s :
  Forall (fun c => is_whitespace c = true) ws ->
  trimStart (ws ++ s) = trimStart s.
Proof.
  induction 1 as [ | c ws Hc _ IH ]; [ reflexivity | ].
  simpl. now rewrite Hc.
Qed.

Lemma trimStart_all_spaces ws :
  Forall (fun c => is_whitespace c = true) ws -> trimStart ws = [].
Proof.
  induction 1 as [ | c ws Hc _ IH ]; [ reflexivity | ].
  simpl. now rewrite Hc.
Qed.

Lemma trimStart_app s t :
  trimStart s <> [] -> trimStart (s ++ t) = trimStart s ++ t.
Proof.
  induction s as [ | c s IH ]; [ contradiction | ].
  simpl. destruct (is_whitespace c); [ exact IH | reflexivity ].
Qed.

Lemma trimEnd_idem s : trimEnd (trimEnd s) = trimEnd s.
Proof. unfold trimEnd. now rewrite rev_involutive, trimStart_idem. Qed.

Lemma trimEnd_spaces s ws :
  Forall (fun c => is_whitespace c = true) ws ->
  trimEnd (s ++ ws) = trimEnd s.
Proof.
  intros H. unfold trimEnd. rewrite rev_app_distr, trimStart_spaces;
    [ reflexivity | ].
  now apply Forall_rev.
Qed.

Lemma trimEnd_app s t :
  trimEnd t <> [] -> trimEnd (s ++ t) = s ++ trimEnd t.
Proof.
  intros H. unfold trimEnd in *. rewrite rev_app_distr, trimStart_app.
  - now rewrite rev_app_distr, rev_involutive.
  - intros E. apply H. now rewrite E.
Qed.

Lemma trimEnd_nil_iff s :
  trimEnd s = [] <-> Forall (fun c => is_whitespace c = true) s.
Proof.
  unfold trimEnd. split.
  - intros H. apply (f_equal (@rev N)) in H. rewrite rev_involutive in H.
    simpl in H. rewrite <- (rev_involutive s). apply Forall_rev.
    induction (rev s) as [ | c t IH ]; [ constructor | ].
    simpl in H. destruct (is_whitespace c) eqn:E; [ | discriminate H ].
    constructor; [ exact E | exact (IH H) ].
  - intros H. apply Forall_rev in H.
    now rewrite (@trimStart_all_spaces (rev s) H).
Qed.

(** [trim] leaves a string that neither starts nor ends with
    white space. *)
Lemma trim_is_trimmed s :
  trimStart (trim s) = trim s /\ trimEnd (trim s) = trim s.
Proof.
  unfold trim. split; [ | apply trimEnd_idem ].
  pose proof (trimStart_head s) as Hh.
  destruct (trimStart s) as [ | c t ] eqn:E; [ reflexivity | ].
  change (c :: t) with ([c] ++ t).
  destruct (trimEnd t) as [ | d u ] eqn:Et.
  - apply trimEnd_nil_iff in Et. rewrite (@trimEnd_spaces [c] t Et).
    assert (Ec : trimEnd [c] = [c]) by (unfold trimEnd; simpl; now rewrite Hh).
    rewrite Ec. simpl. now rewrite Hh.
  - rewrite trimEnd_app by (rewrite Et; discriminate).
    simpl. now rewrite Hh.
Qed.

Lemma trim_fixed s : trimStart s = s -> trimEnd s = s -> trim s = s.
Proof. unfold trim. intros -> ->. reflexivity. Qed.

Lemma trim_spaces ws1 s ws2 :
  Forall (fun c => is_whitespace c = true) ws1 ->
  Forall (fun c => is_whitespace c = true) ws2 ->
  trim (ws1 ++ s ++ ws2) = trim s.
Proof.
  intros H1 H2. unfold trim. rewrite (@trimStart_spaces ws1 (s ++ ws2) H1).
  destruct (trimStart s) as [ | c t ] eqn:E.
  - assert (Hs : trimStart (s ++ ws2) = []).
    { clear - E H2. induction s as [ | a s IH ].
      - now apply trimStart_all_spaces.
      - simpl in *. destruct (is_whitespace a); [ now apply IH | discriminate E ]. }
    now rewrite Hs.
  - rewrite trimStart_app by (rewrite E; discriminate).
    rewrite E. now apply trimEnd_spaces.
Qed.

Lemma letter_is_not_whitespace c :
  (65 <= c <= 122)%N -> is_whitespace c = false.
Proof.
  intros H. destruct (is_whitespace c) eqn:E; [ exfalso | reflexivity ].
  unfold is_whitespace, in_range in E. simpl in E.
  rewrite !orb_true_iff, !andb_true_iff, !N.eqb_eq, !N.leb_le in E. lia.
Qed.

(** ** [authenticate] *)

Lemma match_ignoring_case_app pat word rest :
  map ascii_upper word = map ascii_upper pat ->
  match_ignoring_case pat (word ++ rest) = Some rest.
Proof.
  revert word. induction pat as [ | p pat IH ]; intros [ | c word ] H;
    try discriminate H.
  - destruct rest; reflexivity.
  - simpl in H. inversion H as [ [ Hc Hw ] ]. simpl.
    rewrite Hc, N.eqb_refl. now apply IH.
Qed.

Lemma strip_bearer_scheme word ws tok :
  map ascii_upper word = map ascii_upper (lit "Bearer") ->
  ws <> [] ->
  Forall (fun c => is_whitespace c = true) ws ->
  strip_bearer (word ++ ws ++ tok) = trimStart tok.
Proof.
  intros Hw Hne Hws. unfold strip_bearer.
  rewrite (@match_ignoring_case_app (lit "Bearer") word (ws ++ tok) Hw).
  destruct ws as [ | c ws ]; [ contradiction | ].
  inversion Hws as [ | ? ? Hc Hrest ]; subst.
  cbn [app]. rewrite Hc. now apply trimStart_spaces.
Qed.

Lemma authenticate_sound a x s :
  authenticate a x = inr s ->
  SessionAuth.token s
  = trim (strip_bearer match a with Some h => h | None => [] end)
  /\ SessionAuth.vaultId s = match x with Some h => h | None => [] end.
Proof.
  unfold authenticate.
  destruct (trim _) as [ | c t ]; [ discriminate | ].
  destruct (match x with Some h => h | None => [] end) as [ | d u ];
    [ discriminate | ].
  intros H. inversion H. split; reflexivity.
Qed.

(** X13.  [authenticate] accepts a connection exactly when the
    [Authorization] header, without its [Bearer] scheme and trimmed, is
    not empty and the [X-Vault-ID] header is not empty.  The session it
    returns carries that trimmed token, which neither starts nor ends
    with white space, and the vault id as it was sent. *)
Theorem authenticate_accepts :
  forall a x,
    let token := trim (strip_bearer match a with Some h => h | None => [] end) in
    let vault := match x with Some h => h | None => [] end in
    match authenticate a x with
    | inr s =>
        SessionAuth.token s = token /\ SessionAuth.vaultId s = vault
        /\ token <> [] /\ vault <> []
        /\ trimStart (SessionAuth.token s) = SessionAuth.token s
        /\ trimEnd (SessionAuth.token s) = SessionAuth.token s
    | inl msg =>
        (token = [] /\ msg = lit "Missing Authorization header (Bearer <agent-token>)")
        \/ (token <> [] /\ vault = [] /\ msg = lit "Missing X-Vault-ID header")
    end.
Proof.
  intros a x. cbv zeta. unfold authenticate.
  pose proof (trim_is_trimmed
                (strip_bearer match a with Some h => h | None => [] end))
    as [ Hs He ].
  destruct (trim (strip_bearer match a with Some h => h | None => [] end))
    as [ | c t ]; [ left; split; reflexivity | ].
  destruct x as [ [ | d u ] | ]; cbv beta iota.
  - right. repeat split. discriminate.
  - cbn [SessionAuth.token SessionAuth.vaultId].
    repeat split; try discriminate; assumption.
  - right. repeat split. discriminate.
Qed.

(** X14.  A header made of the word [Bearer] in any mix of upper and
    lower case, some white space and a token gives a session with
    exactly that token; the same word followed by white space only is
    refused as a missing header, while the word alone, with nothing
    after it, is taken as the token itself. *)
Theorem authenticate_reads_bearer_header :
  forall word ws tok x,
    map ascii_upper word = map ascii_upper (lit "Bearer") ->
    Forall (fun c => is_whitespace c = true) ws ->
    ws <> [] ->
    x <> [] ->
    (tok <> [] -> trimStart tok = tok -> trimEnd tok = tok ->
     authenticate (Some (word ++ ws ++ tok)) (Some x)
     = inr {| SessionAuth.token := tok; SessionAuth.vaultId := x |})
    /\ authenticate (Some (word ++ ws)) (Some x)
       = inl (lit "Missing Authorization header (Bearer <agent-token>)")
    /\ authenticate (Some word) (Some x)
       = inr {| SessionAuth.token := word; SessionAuth.vaultId := x |}.
Proof.
  clear StringToNumber ONECLAW_BASE_URL sharedClient.
  intros word ws tok x Hw Hws Hne Hx. split; [ | split ].
  - intros Ht Hs He. unfold authenticate.
    rewrite (@strip_bearer_scheme word ws tok Hw Hne Hws), Hs,
      (@trim_fixed tok Hs He).
    destruct tok as [ | c t ]; [ contradiction | ].
    destruct x as [ | d u ]; [ contradiction | reflexivity ].
  - unfold authenticate. rewrite <- (app_nil_r ws) at 1.
    rewrite (@strip_bearer_scheme word ws [] Hw Hne Hws). reflexivity.
  - assert (Hword : exists b e a r e' r',
               word = [b; e; a; r; e'; r']
               /\ map ascii_upper [b; e; a; r; e'; r']
                  = map ascii_upper (lit "Bearer")).
    { pose proof (f_equal (@List.length N) Hw) as Hl.
      rewrite !length_map in Hl. change (List.length (lit "Bearer")) with 6%nat in Hl.
      destruct word as [ | b [ | e [ | a [ | r [ | e' [ | r' [ | ? ? ] ] ] ] ] ] ];
        try discriminate Hl.
      exists b, e, a, r, e', r'. split; [ reflexivity | exact Hw ]. }
    destruct Hword as (b & e & a & r & e' & r' & -> & Hu).
    assert (Hnw : forall c p, ascii_upper c = ascii_upper p ->
                    In p (lit "Bearer") -> is_whitespace c = false).
    { intros c p Hc Hin. apply letter_is_not_whitespace.
      assert (Hp : (65 <= ascii_upper p <= 90)%N).
      { simpl in Hin.
        destruct Hin as [ <- | [ <- | [ <- | [ <- | [ <- | [ <- | [] ] ] ] ] ] ];
          vm_compute; split; discriminate. }
      rewrite <- Hc in Hp. revert Hp. unfold ascii_upper, in_range.
      destruct (N.leb_spec 97 c), (N.leb_spec c 122); simpl; lia. }
    simpl in Hu. inversion Hu as [ [ Hb He Ha Hr He' Hr' ] ].
    assert (Hm : match_ignoring_case (lit "Bearer") [b; e; a; r; e'; r'] = Some []).
    { rewrite <- (app_nil_r [b; e; a; r; e'; r']).
      now apply match_ignoring_case_app. }
    unfold authenticate, strip_bearer. rewrite Hm.
    assert (Hfirst : is_whitespace b = false).
    { apply (Hnw b 66%N); [ exact Hb | now left ]. }
    assert (Hlast : is_whitespace r' = false).
    { apply (Hnw r' 114%N); [ exact (eq_trans Hr' Hr) | simpl; tauto ]. }
    rewrite trim_fixed.
    + destruct x as [ | d u ]; [ contradiction | reflexivity ].
    + simpl. now rewrite Hfirst.
    + unfold trimEnd. simpl. now rewrite Hlast.
Qed.

(** X15.  What a hosted session sends upstream is what it presented,
    normalised: the client that [resolveClient] makes for an accepted
    session answers [headers] with [Authorization: Bearer <token>],
    where the token is the trimmed one, sends no exchange, and builds
    its URLs under the vault of the [X-Vault-ID] header. *)
Theorem session_headers_round_trip :
  forall a x s h w suffix,
    authenticate a x = inr s ->
    let c := session_client s in
    resolveClient (Some s) h = (Return (List.length h), h ++ [c])
    /\ headers (c, w)
       = (Return [(lit "Authorization", lit "Bearer " ++ SessionAuth.token s);
                  (lit "Content-Type", lit "application/json")],
          (c, w))
    /\ SessionAuth.token s
       = trim (strip_bearer match a with Some t => t | None => [] end)
    /\ vaultUrl c suffix
       = strip_trailing_slash ONECLAW_BASE_URL ++ lit "/v1/vaults/"
         ++ match x with Some v => v | None => [] end ++ suffix.
Proof.
  intros a x s h w suffix Ha c.
  destruct (@authenticate_sound a x s Ha) as [ Ht Hv ].
  split; [ reflexivity | ]. split; [ | split ].
  - apply headers_static; reflexivity.
  - exact Ht.
  - unfold vaultUrl, c, session_client. cbn. now rewrite Hv.
Qed.

(* ================================================================== *)
(** * index.ts: the lines of an env bundle *)
(* ================================================================== *)

Lemma indexOf_app c k v :
  ~ In c k -> indexOf c (k ++ c :: v) = Some (List.length k).
Proof.
  induction k as [ | x k IH ]; intros H; simpl.
  - now rewrite N.eqb_refl.
  - destruct (N.eqb_spec x c) as [ -> | _ ].
    + exfalso. apply H. now left.
    + rewrite IH; [ reflexivity | ]. intros Hin. apply H. now right.
Qed.

Lemma indexOf_Some c s i :
  indexOf c s = Some i ->
  ~ In c (firstn i s) /\ s = firstn i s ++ c :: skipn (S i) s.
Proof.
  revert i. induction s as [ | x s IH ]; intros i H; [ discriminate H | ].
  simpl in H. destruct (N.eqb_spec x c) as [ -> | Hx ].
  - inversion H. subst i. split; [ intros [] | reflexivity ].
  - destruct (indexOf c s) as [ j | ] eqn:Ej; [ | discriminate H ].
    inversion H. subst i. destruct (IH j eq_refl) as [ Hn Hs ].
    split.
    + simpl. intros [ E | Hin ]; [ contradiction | exact (Hn Hin) ].
    + simpl. f_equal. exact Hs.
Qed.

Lemma indexOf_None c s : ~ In c s -> indexOf c s = None.
Proof.
  induction s as [ | x s IH ]; intros H; [ reflexivity | ].
  simpl. destruct (N.eqb_spec x c) as [ -> | _ ].
  - exfalso. apply H. now left.
  - rewrite IH; [ reflexivity | ]. intros Hin. apply H. now right.
Qed.

Lemma trimStart_length s : (List.length (trimStart s) <= List.length s)%nat.
Proof.
  induction s as [ | c s IH ]; [ apply le_n | ].
  simpl. destruct (is_whitespace c); simpl; lia.
Qed.

Lemma trimStart_fixed_head s :
  trimStart s = s ->
  match s with [] => True | c :: _ => is_whitespace c = false end.
Proof. intros H. rewrite <- H. apply trimStart_head. Qed.

Lemma trimEnd_length s : (List.length (trimEnd s) <= List.length s)%nat.
Proof.
  unfold trimEnd. rewrite length_rev, <- (length_rev s).
  apply trimStart_length.
Qed.

Lemma trimStart_suffix s : exists p, s = p ++ trimStart s.
Proof.
  induction s as [ | c s [ p IH ] ]; [ now exists [] | ].
  simpl. destruct (is_whitespace c).
  - exists (c :: p). simpl. now rewrite <- IH.
  - now exists [].
Qed.

Lemma trim_In c s : In c (trim s) -> In c s.
Proof.
  unfold trim, trimEnd. intros H.
  destruct (trimStart_suffix s) as [ p Hp ]. rewrite Hp.
  apply in_or_app. right.
  destruct (trimStart_suffix (rev (trimStart s))) as [ q Hq ].
  apply in_rev. rewrite Hq. apply in_or_app. right.
  now apply in_rev in H.
Qed.

(** A line [k=v] with a plain name and a plain value is one
    assignment. *)
Lemma env_line_binding env k v :
  plain_key k -> plain_value v ->
  env_line env (bundle_line (k, v)) = assign k v env.
Proof.
  intros (Heq & _ & Hts & Hhash & Hproto) (_ & Hte).
  unfold env_line, bundle_line. cbn [fst snd].
  assert (Htrim : trim (k ++ [61%N] ++ v) = k ++ [61%N] ++ v).
  { apply trim_fixed.
    - apply trimStart_fixed. pose proof (@trimStart_fixed_head k Hts) as Hh.
      destruct k as [ | c k ]; [ reflexivity | exact Hh ].
    - destruct v as [ | d v ].
      + rewrite app_nil_r. rewrite trimEnd_app; [ | discriminate ].
        reflexivity.
      + rewrite app_assoc. rewrite trimEnd_app; [ now rewrite Hte | ].
        rewrite Hte. discriminate. }
  rewrite Htrim. clear Htrim.
  destruct (k ++ [61%N] ++ v) as [ | c t ] eqn:E;
    [ destruct k; discriminate E | ].
  rewrite <- E. clear E c t.
  assert (Hs : startsWith (lit "#") (k ++ [61%N] ++ v) = false).
  { destruct k as [ | c k ]; [ reflexivity | exact Hhash ]. }
  rewrite Hs. cbn [app]. rewrite (@indexOf_app 61%N k v Heq).
  rewrite firstn_app, Nat.sub_diag, firstn_all. cbn [firstn].
  rewrite app_nil_r.
  replace (skipn (S (List.length k)) (k ++ 61%N :: v)) with v.
  - unfold set_property. now rewrite (jsstring_eqb_neq Hproto).
  - rewrite skipn_app.
    replace (S (List.length k) - List.length k)%nat with 1%nat by lia.
    rewrite skipn_all2 by lia. reflexivity.
Qed.

(** The loop runs over the lines that were joined. *)
Lemma parse_env_bundle_join ls :
  Forall (fun l => ~ In 10%N l) ls ->
  parse_env_bundle (join [10%N] ls) = fold_left env_line ls [].
Proof.
  intros H. unfold parse_env_bundle.
  destruct ls as [ | l ls ]; [ reflexivity | ].
  rewrite split_join; [ reflexivity | discriminate | exact H ].
Qed.

Lemma bundle_line_no_newline kv :
  plain_key (fst kv) -> plain_value (snd kv) -> ~ In 10%N (bundle_line kv).
Proof.
  intros (_ & Hk & _) (Hv & _). unfold bundle_line.
  intros [ Hin | [ [ E | [] ] | Hin ]%in_app_or ]%in_app_or;
    [ exact (Hk Hin) | discriminate E | exact (Hv Hin) ].
Qed.

Lemma fold_bundle_lines kvs env :
  Forall (fun kv => plain_key (fst kv) /\ plain_value (snd kv)) kvs ->
  fold_left env_line (map bundle_line kvs) env = spread env kvs.
Proof.
  unfold spread. revert env.
  induction kvs as [ | [ k v ] kvs IH ]; intros env H; [ reflexivity | ].
  inversion H as [ | ? ? [ Hk Hv ] Hrest ]; subst. cbn [map fold_left fst snd].
  rewrite (@env_line_binding env k v Hk Hv). now apply IH.
Qed.

Lemma assign_fresh k v o : header k o = None -> assign k v o = o ++ [(k, v)].
Proof.
  induction o as [ | [ k0 v0 ] o IH ]; intros H; [ reflexivity | ].
  simpl in *. destruct (jsstring_eqb k k0); [ discriminate H | ].
  now rewrite IH.
Qed.

Lemma header_None k o : ~ In k (map fst o) -> header k o = None.
Proof.
  induction o as [ | [ k0 v0 ] o IH ]; intros H; [ reflexivity | ].
  simpl. rewrite jsstring_eqb_neq.
  - apply IH. intros Hin. apply H. now right.
  - intros ->. apply H. now left.
Qed.

Lemma spread_distinct env kvs :
  NoDup (map fst kvs) ->
  (forall k, In k (map fst kvs) -> ~ In k (map fst env)) ->
  spread env kvs = env ++ kvs.
Proof.
  unfold spread. revert env.
  induction kvs as [ | [ k v ] kvs IH ]; intros env Hnd Hfresh.
  - now rewrite app_nil_r.
  - inversion Hnd as [ | ? ? Hk Hnd' ]; subst. cbn [fold_left fst snd].
    rewrite assign_fresh by (apply header_None, Hfresh; now left).
    rewrite IH; [ now rewrite <- app_assoc | exact Hnd' | ].
    intros k' Hin. rewrite map_app, in_app_iff. simpl.
    intros [ Hin' | [ <- | [] ] ]; [ | exact (Hk Hin) ].
    apply (Hfresh k'); [ now right | exact Hin' ].
Qed.


(** X17.  When a name is given on several lines of a bundle the last
    line wins, and a name that no line gives is not in the result. *)
Theorem env_bundle_last_line_wins :
  forall kvs k,
    Forall (fun kv => plain_key (fst kv) /\ plain_value (snd kv)) kvs ->
    header k (parse_env_bundle (join [10%N] (map bundle_line kvs)))
    = header k (rev kvs).
Proof.
  intros kvs k Hplain.
  rewrite parse_env_bundle_join.
  - rewrite (@fold_bundle_lines kvs [] Hplain), header_spread.
    destruct (header k (rev kvs)); reflexivity.
  - rewrite Forall_map. eapply Forall_impl; [ | exact Hplain ].
    intros kv [ Hk Hv ]. now apply bundle_line_no_newline.
Qed.

Lemma env_line_trim env l l' : trim l = trim l' -> env_line env l = env_line env l'.
Proof. unfold env_line. now intros ->. Qed.

Lemma env_line_noise env l :
  trim l = [] \/ startsWith (lit "#") (trim l) = true \/ ~ In 61%N l ->
  env_line env l = env.
Proof.
  unfold env_line. intros [ -> | [ H | H ] ]; [ reflexivity | | ].
  - destruct (trim l); [ reflexivity | now rewrite H ].
  - destruct (trim l) as [ | c t ] eqn:E; [ reflexivity | ].
    destruct (startsWith (lit "#") (c :: t)); [ reflexivity | ].
    rewrite indexOf_None; [ reflexivity | ].
    intros Hin. apply H, trim_In. now rewrite E.
Qed.

(** X18.  Blank lines, lines that start with [#] after trimming and
    lines without [=] add nothing to an env bundle, wherever they
    stand; and white space around a line, a carriage return before the
    newline included, does not change what the line gives. *)
Theorem env_bundle_ignores_noise :
  (forall before noise after,
     Forall (fun l => ~ In 10%N l) (before ++ noise :: after) ->
     trim noise = [] \/ startsWith (lit "#") (trim noise) = true
     \/ ~ In 61%N noise ->
     parse_env_bundle (join [10%N] (before ++ noise :: after))
     = parse_env_bundle (join [10%N] (before ++ after)))
  /\
  (forall ls ls',
     Forall (fun l => ~ In 10%N l) ls ->
     Forall (fun l => ~ In 10%N l) ls' ->
     Forall2 (fun l l' => trim l = trim l') ls ls' ->
     parse_env_bundle (join [10%N] ls) = parse_env_bundle (join [10%N] ls'))
  /\
  (forall l, trim (l ++ [13%N]) = trim l).
Proof.
  split; [ | split ].
  - intros before noise after Hnl Hnoise.
    rewrite !parse_env_bundle_join.
    + rewrite !fold_left_app. cbn [fold_left].
      now rewrite (@env_line_noise _ noise Hnoise).
    + apply Forall_app in Hnl as [ Hb Ha ]. inversion Ha; subst.
      apply Forall_app. now split.
    + exact Hnl.
  - intros ls ls' Hl Hl' H2. rewrite !parse_env_bundle_join by assumption.
    clear Hl Hl'. generalize (@nil (jsstring * jsstring)).
    induction H2 as [ | l l' ls ls' Ht _ IH ]; intros env; [ reflexivity | ].
    cbn [fold_left]. rewrite (@env_line_trim env l l' Ht). apply IH.
  - intros l. rewrite <- (app_nil_l (l ++ [13%N])).
    apply (@trim_spaces [] l [13%N]); repeat constructor.
Qed.

Lemma assign_In k v o kv :
  In kv (assign k v o) -> kv = (k, v) \/ In kv o.
Proof.
  induction o as [ | [ k0 v0 ] o IH ]; simpl.
  - intros [ <- | [] ]. now left.
  - destruct (jsstring_eqb k k0); simpl.
    + intros [ <- | H ]; [ now left | right; now right ].
    + intros [ <- | H ]; [ right; now left | ].
      destruct (IH H) as [ -> | Hin ]; [ now left | right; now right ].
Qed.

Lemma assign_NoDup k v o :
  NoDup (map fst o) -> NoDup (map fst (assign k v o)).
Proof.
  induction o as [ | [ k0 v0 ] o IH ]; intros H.
  - simpl. constructor; [ intros [] | constructor ].
  - inversion H as [ | ? ? Hk0 Ho ]; subst. simpl.
    destruct (jsstring_eqb k k0) eqn:E.
    + apply jsstring_eqb_eq in E. subst k0. simpl. now constructor.
    + simpl. constructor; [ | now apply IH ].
      intros Hin. apply in_map_iff in Hin as ([ k1 v1 ] & Hfst & Hin).
      simpl in Hfst. subst k1.
      destruct (assign_In _ _ _ _ Hin) as [ Heq | Hold ].
      * inversion Heq. subst. rewrite jsstring_eqb_refl in E. discriminate E.
      * apply Hk0. apply in_map_iff. now exists (k0, v1).
Qed.

Lemma trimEnd_tail p v : trimEnd (p ++ v) = p ++ v -> trimEnd v = v.
Proof.
  intros H. destruct (trimEnd v) as [ | c t ] eqn:E.
  - apply trimEnd_nil_iff in E.
    rewrite (@trimEnd_spaces p v E) in H.
    pose proof (trimEnd_length p) as Hl. rewrite H, length_app in Hl.
    destruct v; [ reflexivity | simpl in Hl; lia ].
  - rewrite trimEnd_app in H by (rewrite E; discriminate).
    rewrite E in H. now apply app_inv_head in H.
Qed.

(** Every turn of the loop keeps the names distinct, and what it adds
    is a plain name with a plain value. *)
Lemma env_line_keeps_plain env l :
  ~ In 10%N l ->
  NoDup (map fst env) ->
  Forall (fun kv => plain_key (fst kv) /\ plain_value (snd kv)) env ->
  NoDup (map fst (env_line env l))
  /\ Forall (fun kv => plain_key (fst kv) /\ plain_value (snd kv))
       (env_line env l).
Proof.
  intros Hnl Hnd Hall. unfold env_line.
  pose proof (trim_is_trimmed l) as [ Hts Hte ].
  assert (Hin10 : ~ In 10%N (trim l)) by (intros H; exact (Hnl (trim_In _ _ H))).
  destruct (trim l) as [ | c t ] eqn:E; [ now split | ].
  destruct (startsWith (lit "#") (c :: t)) eqn:Hhash; [ now split | ].
  destruct (indexOf 61 (c :: t)) as [ i | ] eqn:Hi; [ | now split ].
  destruct (indexOf_Some _ _ Hi) as [ Hno Hsplit ].
  set (k := firstn i (c :: t)) in *. set (v := skipn (S i) (c :: t)) in *.
  unfold set_property.
  destruct (jsstring_eqb k (lit "__proto__")) eqn:Hp; [ now split | ].
  split; [ now apply assign_NoDup | ].
  apply Forall_forall. intros kv Hkv.
  destruct (assign_In _ _ _ _ Hkv) as [ -> | Hold ];
    [ | exact (proj1 (Forall_forall _ _) Hall kv Hold) ].
  cbn [fst snd]. rewrite Hsplit in Hin10, Hts, Hte, Hhash.
  split; [ split; [ exact Hno | split; [ | split; [ | split ] ] ] | split ].
  - intros H. apply Hin10. apply in_or_app. now left.
  - apply trimStart_fixed. pose proof (@trimStart_fixed_head (k ++ 61%N :: v) Hts) as Hh.
    destruct k; [ exact I | exact Hh ].
  - destruct k as [ | a k' ]; [ reflexivity | exact Hhash ].
  - intros Hk. rewrite Hk, jsstring_eqb_refl in Hp. discriminate Hp.
  - intros H. apply Hin10. apply in_or_app. right. now right.
  - apply (@trimEnd_tail (k ++ [61%N]) v). now rewrite <- app_assoc.
Qed.

(** X19.  Whatever the text of a bundle, what the loop gives has
    distinct names, none of which contains [=] or a newline, starts
    with white space or [#], or is [__proto__], and values without a
    newline or trailing white space; so writing the result out as
    [k=v] lines and reading it again gives the same result. *)
Theorem env_bundle_result_is_plain :
  forall text,
    let env := parse_env_bundle text in
    NoDup (map fst env)
    /\ Forall (fun kv => plain_key (fst kv) /\ plain_value (snd kv)) env
    /\ parse_env_bundle (join [10%N] (map bundle_line env)) = env.
Proof.
  intros text env.
  assert (Hinv : NoDup (map fst env)
                 /\ Forall (fun kv => plain_key (fst kv) /\ plain_value (snd kv)) env).
  { unfold env, parse_env_bundle.
    pose proof (split_free 10%N text) as Hlines.
    assert (Hgen : forall ls acc,
               Forall (fun l => ~ In 10%N l) ls ->
               NoDup (map fst acc) ->
               Forall (fun kv => plain_key (fst kv) /\ plain_value (snd kv)) acc ->
               NoDup (map fst (fold_left env_line ls acc))
               /\ Forall (fun kv => plain_key (fst kv) /\ plain_value (snd kv))
                    (fold_left env_line ls acc)).
    { induction ls as [ | l ls IH ]; intros acc Hls Hnd Hall; [ now split | ].
      inversion Hls as [ | ? ? Hl Hrest ]; subst. cbn [fold_left].
      destruct (@env_line_keeps_plain acc l Hl Hnd Hall) as [ Hnd' Hall' ].
      now apply IH. }
    apply Hgen; [ exact Hlines | constructor | constructor ]. }
  destruct Hinv as [ Hnd Hall ]. split; [ exact Hnd | ].
  split; [ exact Hall | ].
  rewrite parse_env_bundle_join.
  - rewrite (@fold_bundle_lines env [] Hall).
    rewrite spread_distinct; [ reflexivity | exact Hnd | ].
    intros k _ [].
  - rewrite Forall_map. eapply Forall_impl; [ | exact Hall ].
    intros kv [ Hk Hv ]. now apply bundle_line_no_newline.
Qed.

Arguments NOT_A_BUNDLE : simpl never.
Arguments parse_env_bundle : simpl never.

Lemma get_env_bundle_throws path c w lines e s' :
  getSecret path (c, w) = (Throw e, s') ->
  get_env_bundle path ((c, w), lines) = (Throw (remap_get path e), (s', lines)).
Proof.
  intros H. unfold get_env_bundle, try_catch. unfold bind at 1, on_client.
  rewrite H. destruct e as [ a | | | | | ]; try reflexivity.
  unfold remap_get. destruct (status a =? 410); [ reflexivity | ].
  destruct (status a =? 404); reflexivity.
Qed.

Lemma get_env_bundle_returns path c w lines secret s' t :
  getSecret path (c, w) = (Return secret, s') ->
  get_prop secret (lit "type") = Some t ->
  get_env_bundle path ((c, w), lines)
  = (if strict_eq_string t (lit "env_bundle") then
       match get_prop secret (lit "value") with
       | Some (VStr s) =>
           Return (Json (VObj (map (fun kv => (fst kv, VStr (snd kv)))
                                 (parse_env_bundle s)))
                     (Some 2))
       | _ => Throw TypeError
       end
     else
       match ToString t with
       | Some shown => Throw (UserError (NOT_A_BUNDLE path shown))
       | None => Throw TypeError
       end,
     (s', lines ++ [lit "env_bundle accessed: " ++ path])).
Proof.
  intros H Ht. unfold get_env_bundle, try_catch. unfold bind at 1, on_client.
  rewrite H. unfold bind at 1, log_info. destruct s' as [ c' w' ].
  unfold bind at 1, or_TypeError. rewrite Ht. unfold ret at 1.
  destruct (strict_eq_string t (lit "env_bundle")).
  - unfold bind, ret.
    destruct (get_prop secret (lit "value")) as [ [ | | | | s | | ] | ];
      reflexivity.
  - unfold bind, ret, throw. destruct (ToString t); reflexivity.
Qed.

(** X20.  The [get_env_bundle] tool, when the vault answers 200 with a
    secret: if its [type] is ["env_bundle"] and its [value] a string,
    the tool returns the JSON text (indented by 2) of the object that
    the lines of the value give; a [value] that is not a string is a
    [TypeError]; any other [type] is refused with a user error that
    names the path and the type.  In all three cases the access has
    been logged first.  A 404 or a 410 becomes the same user error as in
    [get_secret], with nothing logged. *)
Theorem get_env_bundle_outcomes :
  forall c w lines path p hdrs c1 w1 dt r rest,
    encodePath path = Some p ->
    headers (c, w) = (Return hdrs, (c1, w1)) ->
    incoming w1 = (dt, Answer r) :: rest ->
    (forall secret t,
       Response.status r = 200 ->
       Response.json r = Some secret ->
       get_prop secret (lit "type") = Some t ->
       snd (snd (get_env_bundle path ((c, w), lines)))
       = lines ++ [lit "env_bundle accessed: " ++ path]
       /\ (forall s,
             t = VStr (lit "env_bundle") ->
             get_prop secret (lit "value") = Some (VStr s) ->
             fst (get_env_bundle path ((c, w), lines))
             = Return (Json (VObj (map (fun kv => (fst kv, VStr (snd kv)))
                                     (parse_env_bundle s)))
                         (Some 2)))
       /\ (forall x,
             t = VStr (lit "env_bundle") ->
             get_prop secret (lit "value") = Some x ->
             (forall s, x <> VStr s) ->
             fst (get_env_bundle path ((c, w), lines)) = Throw TypeError)
       /\ (forall shown,
             t <> VStr (lit "env_bundle") ->
             ToString t = Some shown ->
             fst (get_env_bundle path ((c, w), lines))
             = Throw (UserError (NOT_A_BUNDLE path shown))))
    /\
    (Response.ok r = false -> detail_printable r ->
     snd (snd (get_env_bundle path ((c, w), lines))) = lines
     /\ (Response.status r = 404 ->
         fst (get_env_bundle path ((c, w), lines))
         = Throw (UserError (NO_SECRET path)))
     /\ (Response.status r = 410 ->
         fst (get_env_bundle path ((c, w), lines))
         = Throw (UserError (SECRET_GONE path)))).
Proof.
  intros c w lines path p hdrs c1 w1 dt r rest Hp Hh Hin.
  pose proof (endpoints_use_request c w path VUndefined) as [ _ He ].
  rewrite Hp in He. destruct He as (Eg & _).
  split.
  - intros secret t Hs Hj Ht.
    rewrite (@request_answered c w _ None hdrs c1 w1 dt r rest Hh Hin) in Eg.
    assert (Hok : Response.ok r = true) by (unfold Response.ok; now rewrite Hs).
    rewrite Hok, Hs, Hj in Eg. cbn in Eg.
    rewrite (@get_env_bundle_returns path c w lines secret _ t Eg Ht).
    cbn [fst snd]. split; [ reflexivity | ]. split; [ | split ].
    + intros s -> Hv. rewrite Hv. cbn. now rewrite jsstring_eqb_refl.
    + intros x -> Hv Hx. rewrite Hv. cbn. rewrite jsstring_eqb_refl.
      destruct x; try reflexivity. exfalso. exact (Hx s eq_refl).
    + intros shown Hne Hshown.
      destruct (strict_eq_string t (lit "env_bundle")) eqn:E.
      * exfalso. apply Hne. destruct t; try discriminate E.
        simpl in E. apply jsstring_eqb_eq in E. now subst.
      * now rewrite Hshown.
  - intros Hok Hpr.
    destruct (@request_throws_api_error c w (vaultUrl c (lit "/secrets/" ++ p))
                None hdrs c1 w1 dt r rest Hh Hin Hok Hpr) as (e & Er & Es).
    rewrite <- Eg in Er.
    rewrite (@get_env_bundle_throws path c w lines _ _ Er).
    cbn [fst snd]. unfold remap_get. rewrite Es.
    split; [ reflexivity | ]. split; intros ->; reflexivity.
Qed.

End Core.

(* ================================================================== *)
(** * Concrete runs *)
(* ================================================================== *)

Lemma ensureToken_exchange_schedule_witness :
  fetches (trace (snd (snd (ensureToken no_numbers
                              (new_OneClawClient (Agent sample_agent),
                               world_at 0 [])))))
  = [{| Request.url := lit "https://api.1claw.xyz/v1/auth/agent-token";
        Request.method := Some (lit "POST");
        Request.headers := [(lit "Content-Type", lit "application/json")];
        Request.body :=
          Some (JSON_stringify
                  (VObj [(lit "agent_id", VStr (lit "agent-7"));
                         (lit "api_key", VStr (lit "ocv_key"))])) |}]
  /\
  ensureToken no_numbers (expired_agent_client, world_at 3539999 [])
  = (Return tt, (expired_agent_client, world_at 3539999 []))
  /\
  fst (snd (ensureToken no_numbers
              (expired_agent_client,
               world_at 3540000 [reply 200 (Some (token_grant "jwt-2" 3600))])))
  = with_token expired_agent_client (VStr (lit "jwt-2")) (Fin 7140025).
Proof.
  destruct (ensureToken_exchange_schedule no_numbers)
    as (Hfirst & Hfresh & Hstale).
  split; [ | split ].
  - destruct (Hfirst sample_agent (world_at 0 []))
      as ([ u m h b ] & Hf & Hm & Hu & Hh & Hb).
    simpl in Hm, Hu, Hh, Hb. rewrite Hf, Hm, Hu, Hh, Hb. reflexivity.
  - apply (Hfresh expired_agent_client (lit "agent-7", lit "ocv_key")
             (world_at 3539999 []) 3600000);
      [ reflexivity | reflexivity | reflexivity | reflexivity ].
  - destruct (Hstale expired_agent_client (lit "agent-7", lit "ocv_key")
                (world_at 3540000 [reply 200 (Some (token_grant "jwt-2" 3600))])
                3600000) as [ _ Hgrant ];
      [ reflexivity | reflexivity | unfold REFRESH_BUFFER_MS; simpl; lia | ].
    apply (Hgrant 25 {| Response.status := 200;
                        Response.json := Some (token_grant "jwt-2" 3600) |}
             [] (token_grant "jwt-2" 3600) (VStr (lit "jwt-2")) 3600);
      reflexivity.
Defined.

Lemma static_token_never_exchanges_witness :
  calls 3 (headers no_numbers)
    (new_OneClawClient (Static sample_static), world_at 0 [])
  = (Return [static_headers; static_headers; static_headers],
     (new_OneClawClient (Static sample_static), world_at 0 [])).
Proof.
  destruct (static_token_never_exchanges no_numbers sample_static)
    as (_ & _ & _ & Hcalls & _).
  exact (proj2 (Hcalls 3%nat (world_at 0 []))).
Defined.

(** C3 fails on the token exchange: a 402 that answers it reaches the
    caller of [request] as "Agent auth failed: ...", not as the billing
    message. *)
Lemma exchange_402_is_not_rewritten :
  fst (request no_numbers sample_url None
         (new_OneClawClient (Agent sample_agent),
          world_at 0 [reply 402 (Some (envelope "payment_required"
                                         "Payment required"))]))
  = Throw (OneClawApiError
             {| status := 402;
                detail := VStr (lit "Agent auth failed: Payment required");
                message := lit "Agent auth failed: Payment required" |})
  /\ VStr (lit "Agent auth failed: Payment required") <> VStr QUOTA_EXHAUSTED.
Proof. split; [ reflexivity | discriminate ]. Qed.

Lemma quota_exhausted_on_402_witness :
  fst (request no_numbers sample_url None
         (new_OneClawClient (Static sample_static),
          world_at 0 [reply 402 (Some (envelope "payment_required"
                                         "Payment required"))]))
  = Throw (OneClawApiError
             {| status := 402;
                detail := VStr QUOTA_EXHAUSTED;
                message := QUOTA_EXHAUSTED |})
  /\
  (status {| status := 402;
             detail := VStr (lit "Agent auth failed: Payment required");
             message := lit "Agent auth failed: Payment required" |} = 402
   /\ VStr (lit "Agent auth failed: Payment required") <> VStr QUOTA_EXHAUSTED
   /\ exists text,
        VStr (lit "Agent auth failed: Payment required")
        = VStr (lit "Agent auth failed: " ++ text)).
Proof.
  destruct (quota_exhausted_on_402 no_numbers) as [ Hrequest Hexchange ].
  split.
  - apply (Hrequest (new_OneClawClient (Static sample_static))
             (world_at 0 [reply 402 (Some (envelope "payment_required"
                                             "Payment required"))])
             sample_url None static_headers
             (new_OneClawClient (Static sample_static))
             (world_at 0 [reply 402 (Some (envelope "payment_required"
                                             "Payment required"))])
             25
             {| Response.status := 402;
                Response.json := Some (envelope "payment_required"
                                         "Payment required") |}
             []);
      reflexivity.
  - apply (Hexchange (new_OneClawClient (Agent sample_agent))
             (lit "agent-7", lit "ocv_key")
             (world_at 0 [reply 402 (Some (envelope "payment_required"
                                             "Payment required"))])
             25
             {| Response.status := 402;
                Response.json := Some (envelope "payment_required"
                                         "Payment required") |}
             []
             {| status := 402;
                detail := VStr (lit "Agent auth failed: Payment required");
                message := lit "Agent auth failed: Payment required" |});
      [ reflexivity | intros [ Ht _ ]; discriminate Ht | reflexivity
      | reflexivity | reflexivity ].
Defined.

Lemma resource_limit_on_403_witness :
  (fst (request no_numbers sample_url None
          (new_OneClawClient (Static sample_static),
           world_at 0 [reply 403 (Some (envelope "resource_limit_exceeded"
                                          "Vault limit of 3 reached"))]))
   = Throw (OneClawApiError
              {| status := 403;
                 detail := VStr (resource_limit_detail
                                   (lit "Vault limit of 3 reached"));
                 message := resource_limit_detail
                              (lit "Vault limit of 3 reached") |})
   /\ is_infix BILLING_URL
        (resource_limit_detail (lit "Vault limit of 3 reached"))
   /\ is_infix (lit "Vault limit of 3 reached")
        (resource_limit_detail (lit "Vault limit of 3 reached")))
  /\
  fst (request no_numbers sample_url None
         (new_OneClawClient (Static sample_static),
          world_at 0 [reply 403 (Some (envelope "forbidden" "No access"))]))
  = Throw (OneClawApiError
             {| status := 403;
                detail := VStr (lit "No access");
                message := lit "No access" |}).
Proof.
  split.
  - destruct (proj1 (@resource_limit_on_403 no_numbers
                       (new_OneClawClient (Static sample_static))
                       (world_at 0 [reply 403 (Some (envelope "resource_limit_exceeded"
                                                       "Vault limit of 3 reached"))])
                       sample_url None static_headers _ _ 25
                       {| Response.status := 403;
                          Response.json := Some (envelope "resource_limit_exceeded"
                                                   "Vault limit of 3 reached") |}
                       [] eq_refl eq_refl eq_refl)
                (ex_intro _ (envelope "resource_limit_exceeded"
                               "Vault limit of 3 reached")
                   (conj eq_refl eq_refl))
                (lit "Vault limit of 3 reached") eq_refl)
      as (Hrun & Hurl & Hdetail).
    split; [ exact Hrun | ]. split; [ exact Hurl | ].
    apply (Hdetail (envelope "resource_limit_exceeded" "Vault limit of 3 reached"));
      reflexivity.
  - apply (proj2 (@resource_limit_on_403 no_numbers
                    (new_OneClawClient (Static sample_static))
                    (world_at 0 [reply 403 (Some (envelope "forbidden" "No access"))])
                    sample_url None static_headers _ _ 25
                    {| Response.status := 403;
                       Response.json := Some (envelope "forbidden" "No access") |}
                    [] eq_refl eq_refl eq_refl)).
    + intros (body & Hj & Ht). inversion Hj; subst body.
      vm_compute in Ht. discriminate Ht.
    + reflexivity.
Defined.

Lemma api_error_keeps_status_witness :
  (exists ex,
     fst (request no_numbers sample_url None
            (new_OneClawClient (Static sample_static),
             world_at 0 [reply 404 (Some (envelope "not_found" "No such secret"))]))
     = Throw ex
     /\ (forall e, ex = OneClawApiError e -> status e = 404)
     /\ exists e, ex = OneClawApiError e)
  /\
  (exists ex,
     fst (request no_numbers sample_url None
            (new_OneClawClient (Agent sample_agent),
             world_at 0 [reply 401 (Some (envelope "unauthorized"
                                            "Invalid API key"))]))
     = Throw ex
     /\ (forall e, ex = OneClawApiError e -> status e = 401)
     /\ exists e, ex = OneClawApiError e).
Proof.
  destruct (api_error_keeps_status no_numbers) as [ Hrequest Hexchange ].
  split.
  - destruct (Hrequest
                (new_OneClawClient (Static sample_static))
                (world_at 0 [reply 404 (Some (envelope "not_found" "No such secret"))])
                sample_url None static_headers _ _ 25
                {| Response.status := 404;
                   Response.json := Some (envelope "not_found" "No such secret") |}
                [] eq_refl eq_refl eq_refl)
      as (ex & Hrun & Hstatus & Hapi).
    exists ex. split; [ exact Hrun | ]. split; [ exact Hstatus | ].
    apply Hapi. intros body d Hj Hd. inversion Hj; subst body.
    vm_compute in Hd. inversion Hd. discriminate.
  - destruct (Hexchange
                (new_OneClawClient (Agent sample_agent))
                (lit "agent-7", lit "ocv_key")
                (world_at 0 [reply 401 (Some (envelope "unauthorized"
                                                "Invalid API key"))])
                sample_url None 25
                {| Response.status := 401;
                   Response.json := Some (envelope "unauthorized"
                                            "Invalid API key") |}
                [])
      as (ex & Hrun & Hstatus & Hapi).
    + reflexivity.
    + intros [ Ht _ ]. discriminate Ht.
    + reflexivity.
    + reflexivity.
    + exists ex. split; [ exact Hrun | ]. split; [ exact Hstatus | ].
      apply Hapi. intros body d Hj Hd. inversion Hj; subst body.
      vm_compute in Hd. inversion Hd. discriminate.
Defined.


Lemma fallback_detail_is_http_status_witness :
  fst (request no_numbers sample_url None
         (new_OneClawClient (Static sample_static),
          world_at 0 [reply 502 None]))
  = Throw (OneClawApiError
             {| status := 502;
                detail := VStr (lit "HTTP 502");
                message := lit "HTTP 502" |}).
Proof.
  apply (@fallback_detail_is_http_status no_numbers
           (new_OneClawClient (Static sample_static))
           (world_at 0 [reply 502 None])
           sample_url None static_headers
           (new_OneClawClient (Static sample_static))
           (world_at 0 [reply 502 None])
           25 {| Response.status := 502; Response.json := None |} []).
  - reflexivity.
  - reflexivity.
  - reflexivity.
  - exact I.
  - simpl. lia.
  - simpl. lia.
Defined.

Lemma success_body_handling_witness :
  request no_numbers sample_url None
    (new_OneClawClient (Static sample_static),
     world_at 0 [reply 204 None])
  = (Return VUndefined,
     (new_OneClawClient (Static sample_static),
      answered (fetch_args sample_url None static_headers) 25 []
        (world_at 0 [reply 204 None])))
  /\
  request no_numbers sample_url None
    (new_OneClawClient (Static sample_static),
     world_at 0 [reply 200 None])
  = (Throw SyntaxError,
     (new_OneClawClient (Static sample_static),
      log ReadBody
        (answered (fetch_args sample_url None static_headers) 25 []
           (world_at 0 [reply 200 None])))).
Proof.
  split.
  - apply (proj1 (@success_body_handling no_numbers
                    (new_OneClawClient (Static sample_static))
                    (world_at 0 [reply 204 None])
                    sample_url None static_headers _ _ 25
                    {| Response.status := 204; Response.json := None |}
                    [] eq_refl eq_refl)).
    reflexivity.
  - apply (proj2 (@success_body_handling no_numbers
                    (new_OneClawClient (Static sample_static))
                    (world_at 0 [reply 200 None])
                    sample_url None static_headers _ _ 25
                    {| Response.status := 200; Response.json := None |}
                    [] eq_refl eq_refl)).
    + reflexivity.
    + simpl. lia.
    + reflexivity.
Defined.

Lemma resolveClient_routing_witness :
  execute (lit "https://api.1claw.xyz") None sample_tool None
    ([], world_at 0 [])
  = (Throw (UserError NOT_AUTHENTICATED), ([], world_at 0 []))
  /\
  execute (lit "https://api.1claw.xyz") (Some 0%nat) sample_tool None
    ([new_OneClawClient (Static sample_static)], world_at 0 [])
  = sample_tool 0%nat
      ([new_OneClawClient (Static sample_static)], world_at 0 [])
  /\
  resolveClient (lit "https://api.1claw.xyz") (Some 0%nat) (Some sample_session)
    [new_OneClawClient (Static sample_static)]
  = (Return 1%nat,
     [new_OneClawClient (Static sample_static);
      session_client (lit "https://api.1claw.xyz") sample_session]).
Proof.
  split; [ | split ].
  - apply (proj2 (proj2 (@resolveClient_routing (lit "https://api.1claw.xyz")
                           None sample_tool [] (world_at 0 [])))).
    reflexivity.
  - apply (proj2 (proj1 (proj2
             (@resolveClient_routing (lit "https://api.1claw.xyz") (Some 0%nat)
                sample_tool [new_OneClawClient (Static sample_static)]
                (world_at 0 []))) 0%nat eq_refl)).
  - apply (proj1 (proj1
             (@resolveClient_routing (lit "https://api.1claw.xyz") (Some 0%nat)
                sample_tool [new_OneClawClient (Static sample_static)]
                (world_at 0 [])) sample_session)).
Defined.

Lemma exchange_failure_keeps_cache_witness :
  exists ex w',
    ensureToken no_numbers
      (expired_agent_client,
       world_at 3540000 [reply 401 (Some (envelope "unauthorized"
                                            "Invalid API key"))])
    = (Throw ex, (expired_agent_client, w'))
    /\ token (fst (snd (ensureToken no_numbers
         (expired_agent_client,
          world_at 3540000 [reply 401 (Some (envelope "unauthorized"
                                               "Invalid API key"))]))))
       = VStr (lit "jwt-1")
    /\ tokenExpiresAt (fst (snd (ensureToken no_numbers
         (expired_agent_client,
          world_at 3540000 [reply 401 (Some (envelope "unauthorized"
                                               "Invalid API key"))]))))
       = Fin 3600000
    /\ exists text,
         ex = OneClawApiError
                {| status := 401;
                   detail := VStr (lit "Agent auth failed: " ++ text);
                   message := lit "Agent auth failed: " ++ text |}.
Proof.
  destruct (@exchange_failure_keeps_cache no_numbers
              expired_agent_client (lit "agent-7", lit "ocv_key")
              (world_at 3540000 [reply 401 (Some (envelope "unauthorized"
                                                    "Invalid API key"))])
              25
              {| Response.status := 401;
                 Response.json := Some (envelope "unauthorized" "Invalid API key") |}
              [])
    as (ex & w' & Hrun & Htoken & Hexpiry & Hdetail).
  - reflexivity.
  - intros (_ & e & He & Hlt). inversion He; subst e.
    unfold REFRESH_BUFFER_MS in Hlt. simpl in Hlt. lia.
  - reflexivity.
  - reflexivity.
  - exists ex, w'. split; [ exact Hrun | ]. split; [ exact Htoken | ].
    split; [ exact Hexpiry | ]. apply Hdetail.
    intros body d Hj Hd. inversion Hj; subst body.
    vm_compute in Hd. inversion Hd. discriminate.
Defined.

(* ------------------------------------------------------------------ *)
(** ** Runs of the client, the tools and index.ts *)

Lemma constructor_drops_one_trailing_slash_witness :
  new_OneClawClient (Static sample_static)
  = new_OneClawClient
      (Static {| ClientConfig.baseUrl := lit "https://api.1claw.xyz";
                 ClientConfig.token := lit "jwt-static";
                 ClientConfig.vaultId := lit "vault-1" |}).
Proof.
  refine (proj1 (proj2 (proj2 (@constructor_drops_one_trailing_slash
                                 (lit "https://api.1claw.xyz") (lit "jwt-static")
                                 (lit "vault-1") (lit "agent-7") (lit "ocv_key")))
                  _)).
  intros b' E. apply (f_equal (@rev N)) in E. rewrite rev_app_distr in E.
  vm_compute in E. discriminate E.
Defined.

Lemma calls_keep_config_witness :
  fst (snd (request no_numbers sample_url None
              (new_OneClawClient (Static sample_static),
               world_at 0 [reply 204 None])))
  = new_OneClawClient (Static sample_static).
Proof.
  apply (proj2 (proj2 (proj2 (proj2
           (@calls_keep_config no_numbers
              (new_OneClawClient (Static sample_static))
              (world_at 0 [reply 204 None]) sample_url None))))).
  reflexivity.
Defined.

Lemma no_request_without_token_witness :
  exists rq,
    fetches (trace (snd (snd (request no_numbers sample_url None
              (new_OneClawClient (Agent sample_agent),
               world_at 0 [reply 401 (Some (envelope "unauthorized"
                                              "Invalid API key"))])))))
    = [rq]
    /\ Request.method rq = Some (lit "POST")
    /\ Request.url rq = lit "https://api.1claw.xyz/v1/auth/agent-token".
Proof.
  refine (proj2 (@no_request_without_token no_numbers
                  (new_OneClawClient (Agent sample_agent))
                  (lit "agent-7", lit "ocv_key")
                  (world_at 0 [reply 401 (Some (envelope "unauthorized"
                                                  "Invalid API key"))])
                  sample_url None
                  (OneClawApiError
                     {| status := 401;
                        detail := VStr (lit "Agent auth failed: Invalid API key");
                        message := lit "Agent auth failed: Invalid API key" |})
                  eq_refl _ eq_refl)).
  intros [ Ht _ ]. discriminate Ht.
Defined.

Lemma request_uses_refreshed_token_witness :
  (exists rq,
     fetches (trace (snd (snd (request no_numbers sample_url None
               (expired_agent_client,
                world_at 3540000 [reply 200 (Some (token_grant "jwt-2" 3600));
                                  reply 204 None])))))
     = [rq;
        fetch_args sample_url None
          [(lit "Authorization", lit "Bearer jwt-2");
           (lit "Content-Type", lit "application/json")]]
     /\ Request.method rq = Some (lit "POST")
     /\ Request.url rq = lit "https://api.1claw.xyz/v1/auth/agent-token")
  /\ fst (snd (request no_numbers sample_url None
            (expired_agent_client,
             world_at 3540000 [reply 200 (Some (token_grant "jwt-2" 3600));
                               reply 204 None])))
     = with_token expired_agent_client (VStr (lit "jwt-2")) (Fin 7140025).
Proof.
  apply (@request_uses_refreshed_token no_numbers
           expired_agent_client (lit "agent-7", lit "ocv_key")
           (world_at 3540000 [reply 200 (Some (token_grant "jwt-2" 3600));
                              reply 204 None])
           sample_url None 25
           {| Response.status := 200;
              Response.json := Some (token_grant "jwt-2" 3600) |}
           [reply 204 None] (lit "jwt-2") 3600).
  - reflexivity.
  - intros (_ & e & He & Hlt). inversion He; subst e.
    unfold REFRESH_BUFFER_MS in Hlt. simpl in Hlt. lia.
  - reflexivity.
  - reflexivity.
  - exists (token_grant "jwt-2" 3600). repeat split.
Defined.

Lemma grant_without_expires_in_witness :
  exists rq,
    fetches (trace (snd (snd (ensureToken no_numbers
              (with_token (new_OneClawClient (Agent sample_agent))
                 (VStr (lit "jwt-2")) NaN,
               world_at 99999999 [])))))
    = [rq]
    /\ Request.method rq = Some (lit "POST")
    /\ Request.url rq = lit "https://api.1claw.xyz/v1/auth/agent-token".
Proof.
  refine (proj2 (@grant_without_expires_in no_numbers
                  (new_OneClawClient (Agent sample_agent))
                  (lit "agent-7", lit "ocv_key")
                  (world_at 0 [reply 200 (Some (VObj [(lit "access_token",
                                                       VStr (lit "jwt-2"))]))])
                  25
                  {| Response.status := 200;
                     Response.json :=
                       Some (VObj [(lit "access_token", VStr (lit "jwt-2"))]) |}
                  [] (VObj [(lit "access_token", VStr (lit "jwt-2"))])
                  (VStr (lit "jwt-2"))
                  eq_refl _ eq_refl eq_refl eq_refl eq_refl eq_refl)
           (world_at 99999999 [])).
  intros [ Ht _ ]. discriminate Ht.
Defined.

Lemma short_grant_is_not_reused_witness :
  fst (snd (ensureToken no_numbers
              (new_OneClawClient (Agent sample_agent),
               world_at 0 [reply 200 (Some (token_grant "jwt-2" 60))])))
  = with_token (new_OneClawClient (Agent sample_agent))
      (VStr (lit "jwt-2")) (Fin 60025)
  /\ exists rq,
       fetches (trace (snd (snd (ensureToken no_numbers
                 (fst (snd (ensureToken no_numbers
                              (new_OneClawClient (Agent sample_agent),
                               world_at 0 [reply 200
                                             (Some (token_grant "jwt-2" 60))]))),
                  world_at 25 [])))))
       = [rq]
       /\ Request.method rq = Some (lit "POST")
       /\ Request.url rq = lit "https://api.1claw.xyz/v1/auth/agent-token".
Proof.
  apply (@short_grant_is_not_reused no_numbers
           (new_OneClawClient (Agent sample_agent))
           (lit "agent-7", lit "ocv_key")
           (world_at 0 [reply 200 (Some (token_grant "jwt-2" 60))])
           25
           {| Response.status := 200;
              Response.json := Some (token_grant "jwt-2" 60) |}
           [] (token_grant "jwt-2" 60) (lit "jwt-2") 60 (world_at 25 [])).
  - reflexivity.
  - intros [ Ht _ ]. discriminate Ht.
  - reflexivity.
  - reflexivity.
  - reflexivity.
  - reflexivity.
  - reflexivity.
  - right. unfold REFRESH_BUFFER_MS. lia.
  - simpl. lia.
Defined.

Lemma request_never_retries_witness :
  fetches (trace (snd (snd (request no_numbers sample_url None
            (new_OneClawClient (Static sample_static),
             world_at 0 [reply 500 None; reply 200 None])))))
  = [fetch_args sample_url None static_headers]
  /\ incoming (snd (snd (request no_numbers sample_url None
                 (new_OneClawClient (Static sample_static),
                  world_at 0 [reply 500 None; reply 200 None]))))
     = [reply 200 None].
Proof.
  apply (@request_never_retries no_numbers
           (new_OneClawClient (Static sample_static))
           (world_at 0 [reply 500 None; reply 200 None])
           sample_url None static_headers
           (new_OneClawClient (Static sample_static))
           (world_at 0 [reply 500 None; reply 200 None])).
  reflexivity.
Defined.


Lemma getSecretTool_error_mapping_witness :
  fst (getSecretTool no_numbers (lit "api-keys/stripe")
         (new_OneClawClient (Static sample_static),
          world_at 0 [reply 404 (Some (envelope "not_found" "No such secret"))],
          []))
  = Throw (UserError (lit "No secret found at path 'api-keys/stripe'."))
  /\ snd (snd (getSecretTool no_numbers (lit "api-keys/stripe")
                 (new_OneClawClient (Static sample_static),
                  world_at 0 [reply 404 (Some (envelope "not_found"
                                                 "No such secret"))],
                  [])))
     = [].
Proof.
  destruct (@getSecretTool_error_mapping no_numbers
              (new_OneClawClient (Static sample_static))
              (world_at 0 [reply 404 (Some (envelope "not_found" "No such secret"))])
              [] (lit "api-keys/stripe") (lit "api-keys/stripe")
              static_headers
              (new_OneClawClient (Static sample_static))
              (world_at 0 [reply 404 (Some (envelope "not_found" "No such secret"))])
              25
              {| Response.status := 404;
                 Response.json := Some (envelope "not_found" "No such secret") |}
              [])
    as (Hlog & H404 & _).
  - reflexivity.
  - reflexivity.
  - reflexivity.
  - reflexivity.
  - intros body d Hj Hd. inversion Hj; subst body.
    vm_compute in Hd. inversion Hd. discriminate.
  - split; [ exact (H404 eq_refl) | exact Hlog ].
Defined.

Lemma deleteSecretTool_outcomes_witness :
  fst (deleteSecretTool no_numbers (lit "api-keys/old")
         (new_OneClawClient (Static sample_static),
          world_at 0 [reply 204 None], []))
  = Return (Text (lit "Secret at 'api-keys/old' has been soft-deleted."))
  /\ snd (snd (deleteSecretTool no_numbers (lit "api-keys/old")
                 (new_OneClawClient (Static sample_static),
                  world_at 0 [reply 204 None], [])))
     = [lit "secret deleted: api-keys/old"].
Proof.
  apply (proj1 (@deleteSecretTool_outcomes no_numbers
                  (new_OneClawClient (Static sample_static))
                  (world_at 0 [reply 204 None])
                  [] (lit "api-keys/old") (lit "api-keys/old")
                  static_headers
                  (new_OneClawClient (Static sample_static))
                  (world_at 0 [reply 204 None])
                  25 {| Response.status := 204; Response.json := None |} []
                  eq_refl eq_refl eq_refl)).
  reflexivity.
Defined.

Lemma startup_decides_the_shared_client_witness :
  (exists msg,
     startup (lit "https://api.1claw.xyz") None (Some (lit "jwt-static")) (Some [])
     = Exit 1 msg)
  /\
  startup (lit "https://api.1claw.xyz") None
    (Some (lit "jwt-static")) (Some (lit "vault-1"))
  = Running [new_OneClawClient (Static sample_static)] (Some 0%nat)
  /\
  startup (lit "https://api.1claw.xyz") (Some (lit "httpStream")) None None
  = Running [] None.
Proof.
  destruct (@startup_decides_the_shared_client (lit "https://api.1claw.xyz")
              (Some 0%nat) None (Some (lit "jwt-static")) (Some []))
    as (Hexit & _ & _).
  destruct (@startup_decides_the_shared_client (lit "https://api.1claw.xyz")
              (Some 0%nat) None (Some (lit "jwt-static")) (Some (lit "vault-1")))
    as (_ & Hrun & _).
  destruct (@startup_decides_the_shared_client (lit "https://api.1claw.xyz")
              None (Some (lit "httpStream")) None None)
    as (_ & _ & Hhttp).
  split; [ | split ].
  - apply Hexit; [ exact I | right; reflexivity ].
  - apply (Hrun I (lit "jwt-static") (lit "vault-1"));
      [ reflexivity | reflexivity | discriminate | discriminate ].
  - apply Hhttp. intros E. vm_compute in E. discriminate E.
Defined.

Lemma authenticate_reads_bearer_header_witness :
  authenticate (Some (lit "bEARER" ++ [32%N; 9%N] ++ lit "jwt-session"))
    (Some (lit "vault-9"))
  = inr sample_session
  /\ authenticate (Some (lit "bEARER" ++ [32%N; 9%N])) (Some (lit "vault-9"))
     = inl (lit "Missing Authorization header (Bearer <agent-token>)")
  /\ authenticate (Some (lit "bEARER")) (Some (lit "vault-9"))
     = inr {| SessionAuth.token := lit "bEARER";
              SessionAuth.vaultId := lit "vault-9" |}.
Proof.
  destruct (@authenticate_reads_bearer_header
              (lit "bEARER") [32%N; 9%N] (lit "jwt-session") (lit "vault-9"))
    as (Htoken & Hblank & Hword).
  - reflexivity.
  - repeat constructor.
  - discriminate.
  - discriminate.
  - split; [ | split; [ exact Hblank | exact Hword ] ].
    apply Htoken; [ discriminate | reflexivity | reflexivity ].
Defined.

Lemma session_headers_round_trip_witness :
  headers no_numbers
    (session_client (lit "https://api.1claw.xyz") sample_session, world_at 0 [])
  = (Return [(lit "Authorization", lit "Bearer jwt-session");
             (lit "Content-Type", lit "application/json")],
     (session_client (lit "https://api.1claw.xyz") sample_session, world_at 0 []))
  /\ vaultUrl (session_client (lit "https://api.1claw.xyz") sample_session)
       (lit "/secrets")
     = lit "https://api.1claw.xyz/v1/vaults/vault-9/secrets".
Proof.
  destruct (@session_headers_round_trip no_numbers (lit "https://api.1claw.xyz")
              None (Some (lit "Bearer  jwt-session ")) (Some (lit "vault-9"))
              sample_session [] (world_at 0 []) (lit "/secrets") eq_refl)
    as (_ & Hheaders & _ & Hurl).
  split; [ exact Hheaders | exact Hurl ].
Defined.


Lemma env_bundle_last_line_wins_witness :
  header (lit "A") (parse_env_bundle (join [10%N] [lit "A=1"; lit "B=2"; lit "A=3"]))
  = Some (lit "3").
Proof.
  apply (@env_bundle_last_line_wins
           [(lit "A", lit "1"); (lit "B", lit "2"); (lit "A", lit "3")] (lit "A")).
  repeat constructor;
    try (intros H; vm_compute in H; intuition discriminate);
    reflexivity.
Defined.

Lemma env_bundle_ignores_noise_witness :
  parse_env_bundle (join [10%N] [lit "A=1"; lit "  # B=2"; lit "C=3"])
  = parse_env_bundle (join [10%N] [lit "A=1"; lit "C=3"]).
Proof.
  apply (proj1 env_bundle_ignores_noise [lit "A=1"] (lit "  # B=2") [lit "C=3"]).
  - repeat constructor; intros H; vm_compute in H; intuition discriminate.
  - right. left. reflexivity.
Defined.

Lemma get_env_bundle_outcomes_witness :
  fst (get_env_bundle no_numbers (lit "envs/prod")
         (new_OneClawClient (Static sample_static),
          world_at 0 [reply 200 (Some sample_bundle)], []))
  = Return (Json (VObj [(lit "A", VStr (lit "1"));
                        (lit "B ", VStr (lit " 2"))])
              (Some 2))
  /\ snd (snd (get_env_bundle no_numbers (lit "envs/prod")
                 (new_OneClawClient (Static sample_static),
                  world_at 0 [reply 200 (Some sample_bundle)], [])))
     = [lit "env_bundle accessed: envs/prod"].
Proof.
  destruct (proj1 (@get_env_bundle_outcomes no_numbers
              (new_OneClawClient (Static sample_static))
              (world_at 0 [reply 200 (Some sample_bundle)])
              [] (lit "envs/prod") (lit "envs/prod") static_headers
              (new_OneClawClient (Static sample_static))
              (world_at 0 [reply 200 (Some sample_bundle)])
              25
              {| Response.status := 200; Response.json := Some sample_bundle |}
              [] eq_refl eq_refl eq_refl)
              sample_bundle (VStr (lit "env_bundle")) eq_refl eq_refl eq_refl)
    as (Hlog & Hresult & _).
  split; [ | exact Hlog ].
  exact (Hresult (join [10%N] [lit "A=1"; lit "# note"; lit " B = 2 "])
           eq_refl eq_refl).
Defined.
